(** * OWL-QN driver of mltk/maxent (owlqn.cc): shallow embedding and properties

    The C++ code works on [double] and on [DoubleVector], a dense vector of
    doubles.  A [double] is modelled by a real number: arithmetic is exact,
    rounding, overflow and NaN are outside the model.  The one place where
    owlqn.cc divides, [1.0 / DotProduct(y, s)], keeps its zero-divisor case
    visible through the type [quotient].

    Index loops [for (size_t i = 0; i < n; i++)] are kept as loops over the
    index range; an output parameter becomes a component of the result. *)

From Stdlib Require Import Reals Lra Lia ZArith.
From stdpp Require Import base list.

Open Scope R_scope.

(** ** Loops and element access *)

(** [for (size_t i = 0; i < n; i++) st = body i st]. *)
Definition for_range {S : Type} (n : nat) (body : nat -> S -> S) (init : S) : S :=
  fold_left (fun st i => body i st) (seq 0 n) init.

(** A dense vector of doubles ([mltk::common::DoubleVector], [std::vector<double>]). *)
Abbreviation DoubleVector := (list R).

(** [v[i]], the unchecked element read.  Out of range the C++ behaviour is
    undefined; the model reads 0 there and the theorems keep indices in range. *)
Definition at_ (v : DoubleVector) (i : nat) : R := default 0 (v !! i).

(** ** Constants of owlqn.cc *)

Definition OWLQN_M : nat := 10.
Definition LINE_SEARCH_ALPHA : R := 1 / 10.
Definition LINE_SEARCH_BETA : R := 1 / 2.
Definition OWLQN_MAX_ITER : nat := 300.
Definition MIN_GRAD_NORM : R := 1 / 10000.

(** ** Sign and PseudoGradient *)

Definition Sign (x : R) : Z :=
  if Rlt_dec 0 x then 1%Z
  else if Rlt_dec x 0 then (-1)%Z
  else 0%Z.

(** One round of the loop of [PseudoGradient]: [grad] is the vector being
    built (it starts as a copy of [grad0]). *)
Definition PseudoGradient_step (x grad0 : DoubleVector) (C : R)
    (i : nat) (grad : DoubleVector) : DoubleVector :=
  if Req_dec_T (at_ x i) 0 then
    let gm := at_ grad0 i - C in
    if Rlt_dec 0 gm then <[i := gm]> grad
    else
      let gp := at_ grad0 i + C in
      if Rlt_dec gp 0 then <[i := gp]> grad
      else <[i := 0]> grad
  else <[i := at_ grad i + C * IZR (Sign (at_ x i))]> grad.

Definition PseudoGradient (x grad0 : DoubleVector) (C : R) : DoubleVector :=
  for_range (length x) (PseudoGradient_step x grad0 C) grad0.

(** The coordinate of the pseudo-gradient as the spec words it, for a
    coordinate [xi] of the point and [gi] of the smooth gradient; the
    function [PseudoGradient] above is compared with it. *)
Definition pg_spec (C xi gi : R) : R :=
  if Req_dec_T xi 0 then
    if Rlt_dec 0 (gi - C) then gi - C
    else if Rlt_dec (gi + C) 0 then gi + C
    else 0
  else gi + C * IZR (Sign xi).

(** ** Vector arithmetic of DoubleVector *)

(** Modelled from the spec: mltk/common/double_vector.h is not among the
    sources; the spec gives "fixed-size dense real vectors supporting
    addition, scalar multiply, subtraction, dot product, element access".
    [vadd] is [operator+] on two vectors. *)
Definition vadd (a b : DoubleVector) : DoubleVector := zip_with Rplus a b.

(** Modelled from the spec: double_vector.h is missing; [operator-] on two
    vectors, coordinate by coordinate. *)
Definition vsub (a b : DoubleVector) : DoubleVector := zip_with Rminus a b.

(** Modelled from the spec: double_vector.h is missing; [c * v], the scalar
    multiple. *)
Definition vscale (c : R) (v : DoubleVector) : DoubleVector := map (Rmult c) v.

(** Modelled from the spec: double_vector.h is missing; the dot product
    [a_0*b_0 + a_1*b_1 + ...]. *)
Definition DotProduct (a b : DoubleVector) : R :=
  foldr Rplus 0 (zip_with Rmult a b).

(** Modelled from the spec: double_vector.h is missing; the "orthant
    projection" that "zeroes any coordinate whose sign disagrees with a
    reference vector's sign". *)
Definition Project (v ref : DoubleVector) : DoubleVector :=
  zip_with (fun vi ri => if Z.eq_dec (Sign vi) (Sign ri) then vi else 0) v ref.

(** ** The quotient stored in the history *)

(** [1.0 / d] as owlqn.cc computes it, with no test on [d]: a real quotient
    when [d] is not zero, and for [d = 0] the non-finite double that IEEE
    division gives. *)
Inductive quotient : Type :=
  | Finite (q : R)
  | NonFinite.

Definition fdiv (a d : R) : quotient :=
  if Req_dec_T d 0 then NonFinite else Finite (a / d).

(** ** State of the driver *)

(** The local variables of [PerformOWLQN] that live across iterations. *)
Record owlqn_state : Type := OwlqnState {
  st_iter : nat;
  st_x : DoubleVector;
  st_grad : DoubleVector;
  st_f : R;
  st_s : list DoubleVector;
  st_y : list DoubleVector;
  st_z : list quotient
}.

(** What one pass through the body of the outer loop does. *)
Inductive iter_outcome : Type :=
  | Break                          (* stopping criterion 2 fired *)
  | Continue (st' : owlqn_state)   (* the body ran to its end *)
  | Diverge.                       (* the line search did not return *)

Section Owlqn.

(** [MaxEnt::FunctionGradient], the smooth loss and its gradient at a
    point.  It is defined outside owlqn.cc; the spec gives it as a pure
    function of the point returning the pair (loss, gradient). *)
Variable FunctionGradient : list R -> R * list R.

(** [ApproximateHg], declared in owlqn.cc and defined elsewhere. *)
Variable ApproximateHg :
  nat -> DoubleVector -> list DoubleVector -> list DoubleVector ->
  list quotient -> DoubleVector.

(** [RegularizedFuncGrad(C, x, grad)]: the returned double and the content
    of the output parameter [grad] after the call. *)
Definition RegularizedFuncGrad (C : R) (x : DoubleVector) : R * DoubleVector :=
  let '(f, grad) := FunctionGradient x in
  (for_range (length x) (fun i f => f + C * Rabs (at_ x i)) f, grad).

(** The first loop of [ConstrainedLineSearch]: the orthant to explore. *)
Definition orthant_step (grad0 : DoubleVector) (i : nat)
    (orthant : DoubleVector) : DoubleVector :=
  if Req_dec_T (at_ orthant i) 0 then <[i := - at_ grad0 i]> orthant
  else orthant.

Definition orthant_of (x0 grad0 : DoubleVector) : DoubleVector :=
  for_range (length x0) (orthant_step grad0) x0.

(** The do-while loop of [ConstrainedLineSearch], entered with step size
    [t].  [fuel] bounds the number of trials; the result is [None] when the
    bound is reached, and otherwise the returned [f] with the contents of
    the output parameters [x] and [grad1]. *)
Fixpoint backtrack (fuel : nat) (C : R) (x0 grad0 : DoubleVector) (f0 : R)
    (dx orthant : DoubleVector) (t : R)
    : option (R * DoubleVector * DoubleVector) :=
  match fuel with
  | O => None
  | S fuel' =>
      let t := t * LINE_SEARCH_BETA in
      let x := Project (vadd x0 (vscale t dx)) orthant in
      let '(f, grad1) := RegularizedFuncGrad C x in
      if Rgt_dec f (f0 + LINE_SEARCH_ALPHA * DotProduct (vsub x x0) grad0)
      then backtrack fuel' C x0 grad0 f0 dx orthant t
      else Some (f, x, grad1)
  end.

Definition ConstrainedLineSearch (fuel : nat) (C : R) (x0 grad0 : DoubleVector)
    (f0 : R) (dx : DoubleVector) : option (R * DoubleVector * DoubleVector) :=
  backtrack fuel C x0 grad0 f0 dx (orthant_of x0 grad0) (1 / LINE_SEARCH_BETA).

(** Lines 94-95 of [PerformOWLQN]: the search direction for the
    pseudo-gradient [pg], from the product [hg = ApproximateHg(...)]. *)
Definition SearchDirection (hg pg : DoubleVector) : DoubleVector :=
  let dx := vscale (-1) hg in
  if Rge_dec (DotProduct dx pg) 0 then Project dx (vscale (-1) pg) else dx.

(** The direction [dx] an iteration entered in state [st] searches along:
    [ApproximateHg] is handed the counter, the pseudo-gradient and the
    three history arrays as they are. *)
Definition owlqn_direction (C : R) (st : owlqn_state) : DoubleVector :=
  let pg := PseudoGradient (st_x st) (st_grad st) C in
  SearchDirection
    (ApproximateHg (st_iter st) pg (st_s st) (st_y st) (st_z st)) pg.

(** The body of the outer loop of [PerformOWLQN].  The progress lines
    written to [std::cerr] and the held-out evaluation they report are not
    part of the state. *)
Definition owlqn_iter (fuel : nat) (C : R) (st : owlqn_state) : iter_outcome :=
  let pg := PseudoGradient (st_x st) (st_grad st) C in
  if Rlt_dec (sqrt (DotProduct pg pg)) MIN_GRAD_NORM then Break
  else
    let dx := owlqn_direction C st in
    match ConstrainedLineSearch fuel C (st_x st) pg (st_f st) dx with
    | None => Diverge
    | Some (f, x1, grad1) =>
        let k := (st_iter st mod OWLQN_M)%nat in
        let s := <[k := vsub x1 (st_x st)]> (st_s st) in
        let y := <[k := vsub grad1 (st_grad st)]> (st_y st) in
        let z :=
          <[k := fdiv 1 (DotProduct (default [] (y !! k))
                                     (default [] (s !! k)))]> (st_z st) in
        Continue (OwlqnState (S (st_iter st)) x1 grad1 f s y z)
    end.

(** The outer loop, [remaining] iterations before [iter] reaches
    [OWLQN_MAX_ITER]. *)
Fixpoint owlqn_loop (remaining fuel : nat) (C : R) (st : owlqn_state)
    : option owlqn_state :=
  match remaining with
  | O => Some st
  | S remaining' =>
      match owlqn_iter fuel C st with
      | Break => Some st
      | Diverge => None
      | Continue st' => owlqn_loop remaining' fuel C st'
      end
  end.

(** The state on entry to the outer loop.  The arrays [s] and [y] hold
    [OWLQN_M] default-constructed (empty) vectors; [z] is an uninitialised
    array of doubles, its content [z0] is whatever the stack holds. *)
Definition owlqn_init (z0 : list quotient) (x0 : list R) (C : R) : owlqn_state :=
  let '(f, grad) := RegularizedFuncGrad C x0 in
  OwlqnState 0 x0 grad f (replicate OWLQN_M []) (replicate OWLQN_M []) z0.

(** The state in which the outer loop is left. *)
Definition owlqn_final (fuel : nat) (z0 : list quotient) (x0 : list R) (C : R)
    : option owlqn_state :=
  owlqn_loop OWLQN_MAX_ITER fuel C (owlqn_init z0 x0 C).

(** [MaxEnt::PerformOWLQN(x0, C)]; [None] when a line search does not
    return within [fuel] trials. *)
Definition PerformOWLQN (fuel : nat) (z0 : list quotient) (x0 : list R) (C : R)
    : option (list R) :=
  st_x <$> owlqn_final fuel z0 x0 C.

End Owlqn.

(** ** The spec's wording of the objective and of the line search *)

(** [Σ|x_i|], the L1 norm the spec's regularized objective is written with. *)
Definition l1_norm (x : DoubleVector) : R :=
  foldr (fun xi acc => Rabs xi + acc) 0 x.

(** The orthant reference vector in the spec's words: "equal to x0 except
    where x0_i = 0, in which case use -pg0_i". *)
Definition orthant_spec (x0 pg0 : DoubleVector) : DoubleVector :=
  zip_with (fun xi pgi => if Req_dec_T xi 0 then - pgi else xi) x0 pg0.

(** The step sizes of the spec's trial sequence: 1, 1/2, 1/4, ... *)
Definition trial_step (k : nat) : R := (1 / 2) ^ k.

(** The [k]-th trial point of the spec: [x0 + t*dx] projected onto the
    orthant reference vector. *)
Definition trial_point (x0 pg0 dx : DoubleVector) (k : nat) : DoubleVector :=
  Project (vadd x0 (vscale (trial_step k) dx)) (orthant_spec x0 pg0).

(** The sufficient-decrease test of the spec at a candidate [x]:
    [f(x) <= f0 + alpha * (x - x0)·pg0] with [alpha = 0.1]. *)
Definition sufficient_decrease (FunctionGradient : list R -> R * list R)
    (C : R) (x0 pg0 : DoubleVector) (f0 : R) (x : DoubleVector) : Prop :=
  fst (RegularizedFuncGrad FunctionGradient C x)
  <= f0 + 1 / 10 * DotProduct (vsub x x0) pg0.

(** What the line search hands back when it accepts the point [x]: the
    objective value, the point, the smooth gradient at the point. *)
Definition accepted_result (FunctionGradient : list R -> R * list R)
    (C : R) (x : DoubleVector) : R * DoubleVector * DoubleVector :=
  (fst (RegularizedFuncGrad FunctionGradient C x), x,
   snd (RegularizedFuncGrad FunctionGradient C x)).

(** The Euclidean norm of the pseudo-gradient at the point of a state, as
    stopping criterion 2 computes it. *)
Definition pg_norm (C : R) (st : owlqn_state) : R :=
  sqrt (DotProduct (PseudoGradient (st_x st) (st_grad st) C)
                   (PseudoGradient (st_x st) (st_grad st) C)).

(** The three history arrays have their [OWLQN_M] slots. *)
Definition history_sized (st : owlqn_state) : Prop :=
  length (st_s st) = OWLQN_M /\ length (st_y st) = OWLQN_M /\
  length (st_z st) = OWLQN_M.

(** ** What the spec assumes of the smooth objective oracle *)

(** The gradient the oracle writes has the dimension of the point. *)
Definition oracle_sized (FunctionGradient : list R -> R * list R) : Prop :=
  forall x, length (snd (FunctionGradient x)) = length x.

(** The oracle's loss is convex and its second component is the gradient
    of the loss ("a smooth, convex loss term"): the loss lies above its
    tangent at every point. *)
Definition oracle_convex (FunctionGradient : list R -> R * list R) : Prop :=
  forall x x', length x' = length x ->
    fst (FunctionGradient x) + DotProduct (snd (FunctionGradient x)) (vsub x' x)
    <= fst (FunctionGradient x').

(** "At the start of each outer iteration, (x, grad, f) are mutually
    consistent (grad and f were evaluated at x)." *)
Definition consistent (FunctionGradient : list R -> R * list R) (C : R)
    (st : owlqn_state) : Prop :=
  length (st_grad st) = length (st_x st) /\
  st_f st = fst (RegularizedFuncGrad FunctionGradient C (st_x st)) /\
  st_grad st = snd (RegularizedFuncGrad FunctionGradient C (st_x st)).

(** ** Oracles used to run the code on concrete inputs *)

(** The smooth loss [Σ (x_i - 1)^2 / 2] with its gradient [x - 1]. *)
Definition bowl_oracle (x : list R) : R * list R :=
  (foldr (fun xi acc => (xi - 1) * (xi - 1) / 2 + acc) 0 x,
   map (fun xi => xi - 1) x).

(** The constant loss 0 with its gradient 0. *)
Definition flat_oracle (x : list R) : R * list R :=
  (0, map (fun _ => 0) x).

(** The linear loss [- Σ x_i] with its gradient [-1]. *)
Definition slope_oracle (x : list R) : R * list R :=
  (foldr (fun xi acc => - xi + acc) 0 x, map (fun _ => -1) x).

(** An [ApproximateHg] to run the driver with: the product with the
    identity matrix, which is what the spec gives for the first iteration
    ("identity if no history yet, i.e., iter = 0"). *)
Definition identity_Hg (iter : nat) (pg : DoubleVector)
    (s y : list DoubleVector) (z : list quotient) : DoubleVector := pg.

(** An [ApproximateHg] to run the driver with: the product with minus the
    identity matrix, for which [-ApproximateHg(pg)] points up the
    pseudo-gradient. *)
Definition reversed_Hg (iter : nat) (pg : DoubleVector)
    (s y : list DoubleVector) (z : list quotient) : DoubleVector :=
  vscale (-1) pg.

(** * Properties *)

(** ** Loops over an index range *)

Lemma for_range_0 {S : Type} (body : nat -> S -> S) (init : S) :
  for_range 0 body init = init.
Proof. reflexivity. Qed.

Lemma for_range_S {S : Type} (n : nat) (body : nat -> S -> S) (init : S) :
  for_range (Datatypes.S n) body init = body n (for_range n body init).
Proof.
  unfold for_range. rewrite seq_S, fold_left_app. reflexivity.
Qed.

(** ** Element reads *)

Lemma at_insert (v : DoubleVector) (i j : nat) (r : R) :
  (i < length v)%nat ->
  at_ (<[i := r]> v) j = if decide (i = j) then r else at_ v j.
Proof.
  intros Hi. unfold at_. destruct (decide (i = j)) as [->|Hne].
  - rewrite list_lookup_insert_eq by assumption. reflexivity.
  - rewrite list_lookup_insert_ne by assumption. reflexivity.
Qed.

Lemma at_ext (a b : DoubleVector) :
  length a = length b ->
  (forall i, (i < length a)%nat -> at_ a i = at_ b i) ->
  a = b.
Proof.
  intros Hlen Hat. apply list_eq_same_length with (n := length a); auto.
  intros i u v Hi Hu Hv.
  specialize (Hat i Hi). unfold at_ in Hat. rewrite Hu, Hv in Hat. exact Hat.
Qed.

Lemma at_cons_0 (r : R) (v : DoubleVector) : at_ (r :: v) 0 = r.
Proof. reflexivity. Qed.

Lemma at_cons_S (r : R) (v : DoubleVector) (i : nat) :
  at_ (r :: v) (S i) = at_ v i.
Proof. reflexivity. Qed.

(** ** PseudoGradient *)

Lemma PseudoGradient_step_length (x grad0 : DoubleVector) (C : R) (i : nat)
    (grad : DoubleVector) :
  length (PseudoGradient_step x grad0 C i grad) = length grad.
Proof.
  unfold PseudoGradient_step.
  repeat match goal with |- context [if ?c then _ else _] => destruct c end;
    apply length_insert.
Qed.

(** After [n] rounds of the loop the first [n] coordinates are final and the
    others still hold the copy of [grad0]. *)
Lemma PseudoGradient_rounds (x grad0 : DoubleVector) (C : R) (n : nat) :
  (n <= length grad0)%nat ->
  let grad := for_range n (PseudoGradient_step x grad0 C) grad0 in
  length grad = length grad0 /\
  (forall i, (i < n)%nat -> at_ grad i = pg_spec C (at_ x i) (at_ grad0 i)) /\
  (forall i, (n <= i)%nat -> at_ grad i = at_ grad0 i).
Proof.
  induction n as [|n IH]; intros Hn; cbv zeta.
  - rewrite for_range_0. repeat split; auto. intros i Hi; lia.
  - rewrite for_range_S.
    destruct IH as (Hlen & Hlow & Hhigh); [lia|].
    set (grad := for_range n (PseudoGradient_step x grad0 C) grad0) in *.
    split; [rewrite PseudoGradient_step_length; exact Hlen|].
    assert (Hin : (n < length grad)%nat) by lia.
    split.
    + intros i Hi. unfold PseudoGradient_step, pg_spec.
      destruct (decide (n = i)) as [<-|Hne].
      * rewrite (Hhigh n) by lia.
        repeat match goal with |- context [if ?c then _ else _] => destruct c end;
          rewrite at_insert by assumption;
          (destruct (decide (n = n)); [reflexivity|congruence]).
      * assert (Hi' : (i < n)%nat) by lia.
        repeat match goal with
               | |- context [if ?c then _ else _] =>
                   lazymatch c with decide _ => fail | _ => destruct c end
               end;
          rewrite at_insert by assumption;
          (destruct (decide (n = i)); [congruence|]);
          rewrite (Hlow i Hi'); unfold pg_spec;
          repeat match goal with |- context [if ?c then _ else _] => destruct c end;
          try reflexivity; try contradiction.
    + intros i Hi. unfold PseudoGradient_step.
      repeat match goal with |- context [if ?c then _ else _] => destruct c end;
        rewrite at_insert by assumption;
        (destruct (decide (n = i)); [lia|]); apply Hhigh; lia.
Qed.

Lemma PseudoGradient_length (x grad0 : DoubleVector) (C : R) :
  length grad0 = length x ->
  length (PseudoGradient x grad0 C) = length x.
Proof.
  intros Hlen. unfold PseudoGradient.
  destruct (PseudoGradient_rounds x grad0 C (length x)) as (H & _); lia.
Qed.

Lemma PseudoGradient_at (x grad0 : DoubleVector) (C : R) (i : nat) :
  length grad0 = length x ->
  (i < length x)%nat ->
  at_ (PseudoGradient x grad0 C) i = pg_spec C (at_ x i) (at_ grad0 i).
Proof.
  intros Hlen Hi. unfold PseudoGradient.
  destruct (PseudoGradient_rounds x grad0 C (length x)) as (_ & H & _); [lia|].
  apply H; exact Hi.
Qed.

(** C1: for a point [x], a smooth gradient [grad] of the same dimension and
    a regularization strength [C], the pseudo-gradient
    [pg = PseudoGradient(x, grad, C)] is, at every coordinate [i]:
    [grad_i + C*sign(x_i)] if [x_i <> 0], that is [grad_i + C] for
    [x_i > 0] and [grad_i - C] for [x_i < 0]; [grad_i - C] if [x_i = 0] and
    [grad_i - C > 0]; [grad_i + C] if [x_i = 0] and [grad_i + C < 0] (for a
    regularization strength [C >= 0], where this case excludes the previous
    one); [0] if [x_i = 0] and [grad_i - C <= 0 <= grad_i + C].  In
    particular [pg_i = 0] for a zero coordinate with [grad_i = 0] and
    [C > 0]. *)
Theorem PseudoGradient_coordinates (x grad : DoubleVector) (C : R) (i : nat) :
  length grad = length x ->
  (i < length x)%nat ->
  let pg := PseudoGradient x grad C in
  (at_ x i <> 0 -> at_ pg i = at_ grad i + C * IZR (Sign (at_ x i))) /\
  (0 < at_ x i -> Sign (at_ x i) = 1%Z /\ at_ pg i = at_ grad i + C) /\
  (at_ x i < 0 -> Sign (at_ x i) = (-1)%Z /\ at_ pg i = at_ grad i - C) /\
  (at_ x i = 0 -> at_ grad i - C > 0 -> at_ pg i = at_ grad i - C) /\
  (0 <= C -> at_ x i = 0 -> at_ grad i + C < 0 -> at_ pg i = at_ grad i + C) /\
  (at_ x i = 0 -> at_ grad i - C <= 0 <= at_ grad i + C -> at_ pg i = 0) /\
  (at_ x i = 0 -> at_ grad i = 0 -> C > 0 -> at_ pg i = 0).
Proof.
  intros Hlen Hi pg. subst pg.
  rewrite (PseudoGradient_at x grad C i Hlen Hi). unfold pg_spec, Sign.
  repeat split; intros;
    repeat match goal with |- context [if ?c then _ else _] => destruct c end;
    try reflexivity; try contradiction; cbn [IZR IPR IPR_2]; lra.
Qed.

Lemma PseudoGradient_coordinates_witness :
  at_ (PseudoGradient [0; 2; 0; 0; -3] [0; 1; 3; -3; 5] 1) 1 = 2 /\
  at_ (PseudoGradient [0; 2; 0; 0; -3] [0; 1; 3; -3; 5] 1) 4 = 4 /\
  at_ (PseudoGradient [0; 2; 0; 0; -3] [0; 1; 3; -3; 5] 1) 2 = 2 /\
  at_ (PseudoGradient [0; 2; 0; 0; -3] [0; 1; 3; -3; 5] 1) 3 = -2 /\
  at_ (PseudoGradient [0; 2; 0; 0; -3] [0; 1; 3; -3; 5] 1) 0 = 0.
Proof.
  pose proof (PseudoGradient_coordinates [0; 2; 0; 0; -3] [0; 1; 3; -3; 5] 1) as H.
  split; [|split; [|split; [|split]]].
  - destruct (H 1%nat) as (_ & H1 & _); [reflexivity | simpl; lia |].
    destruct H1 as (_ & H1); [rewrite at_cons_S, at_cons_0; lra|].
    rewrite H1. repeat rewrite ?at_cons_S, ?at_cons_0. lra.
  - destruct (H 4%nat) as (_ & _ & H1 & _); [reflexivity | simpl; lia |].
    destruct H1 as (_ & H1); [repeat rewrite ?at_cons_S, ?at_cons_0; lra|].
    rewrite H1. repeat rewrite ?at_cons_S, ?at_cons_0. lra.
  - destruct (H 2%nat) as (_ & _ & _ & H2 & _); [reflexivity | simpl; lia |].
    rewrite H2; repeat rewrite ?at_cons_S, ?at_cons_0; lra.
  - destruct (H 3%nat) as (_ & _ & _ & _ & H3 & _); [reflexivity | simpl; lia |].
    rewrite H3; repeat rewrite ?at_cons_S, ?at_cons_0; lra.
  - destruct (H 0%nat) as (_ & _ & _ & _ & _ & H4 & _); [reflexivity | simpl; lia |].
    apply H4; repeat rewrite ?at_cons_S, ?at_cons_0; lra.
Defined.

(** C10: with [C = 0] the pseudo-gradient is the smooth gradient itself:
    [PseudoGradient(x, grad, 0)] equals [grad] in every coordinate. *)
Theorem PseudoGradient_zero_strength (x grad : DoubleVector) :
  length grad = length x ->
  PseudoGradient x grad 0 = grad.
Proof.
  intros Hlen. apply at_ext.
  - rewrite PseudoGradient_length by assumption. symmetry; exact Hlen.
  - intros i Hi. rewrite PseudoGradient_length in Hi by assumption.
    rewrite PseudoGradient_at by assumption. unfold pg_spec.
    repeat match goal with |- context [if ?c then _ else _] => destruct c end;
      lra.
Qed.

Lemma PseudoGradient_zero_strength_witness :
  PseudoGradient [0; 2; 0; -1] [0; 1; 3; -3] 0 = [0; 1; 3; -3].
Proof.
  apply (PseudoGradient_zero_strength [0; 2; 0; -1] [0; 1; 3; -3]).
  reflexivity.
Defined.

(** ** RegularizedFuncGrad *)

Lemma l1_norm_app (a b : DoubleVector) :
  l1_norm (a ++ b) = l1_norm a + l1_norm b.
Proof.
  induction a as [|r a IH]; simpl.
  - lra.
  - rewrite IH. lra.
Qed.

Lemma l1_norm_nonneg (a : DoubleVector) : 0 <= l1_norm a.
Proof.
  induction a as [|r a IH]; simpl; [lra|].
  pose proof (Rabs_pos r). lra.
Qed.

(** The accumulation loop of [RegularizedFuncGrad] after [n] rounds. *)
Lemma l1_loop_rounds (C f : R) (x : DoubleVector) (n : nat) :
  (n <= length x)%nat ->
  for_range n (fun i f => f + C * Rabs (at_ x i)) f = f + C * l1_norm (take n x).
Proof.
  induction n as [|n IH]; intros Hn.
  - rewrite for_range_0. simpl. lra.
  - rewrite for_range_S, IH by lia.
    destruct (lookup_lt_is_Some_2 x n) as [r Hr]; [lia|].
    rewrite (take_S_r x n r Hr), l1_norm_app. unfold at_. rewrite Hr.
    simpl. lra.
Qed.

Section Objective.

Variable FunctionGradient : list R -> R * list R.

Lemma RegularizedFuncGrad_pair (C : R) (x : DoubleVector) :
  RegularizedFuncGrad FunctionGradient C x =
  (fst (FunctionGradient x) + C * l1_norm x, snd (FunctionGradient x)).
Proof.
  unfold RegularizedFuncGrad. destruct (FunctionGradient x) as [f grad].
  simpl. rewrite l1_loop_rounds by lia. rewrite firstn_all. reflexivity.
Qed.

(** C8: [RegularizedFuncGrad(C, x, grad)] returns
    [smooth_loss(x) + C * Σ|x_i|] and leaves in the output parameter
    [grad] the gradient of the smooth part at [x], to which the L1 term
    adds nothing; the call has no other result.  This holds for every [C],
    so for every [C >= 0]. *)
Theorem RegularizedFuncGrad_value (C : R) (x : DoubleVector) :
  RegularizedFuncGrad FunctionGradient C x =
  (fst (FunctionGradient x) + C * l1_norm x, snd (FunctionGradient x)).
Proof.
  unfold RegularizedFuncGrad. destruct (FunctionGradient x) as [f grad].
  cbn [fst snd]. f_equal.
  rewrite l1_loop_rounds by lia. rewrite firstn_all. reflexivity.
Qed.

End Objective.

(** ** The orthant reference vector *)

Lemma at_zip_with (g : R -> R -> R) (a b : DoubleVector) (i : nat) :
  (i < length a)%nat -> (i < length b)%nat ->
  at_ (zip_with g a b) i = g (at_ a i) (at_ b i).
Proof.
  intros Ha Hb. unfold at_. rewrite lookup_zip_with.
  destruct (lookup_lt_is_Some_2 a i Ha) as [u ->].
  destruct (lookup_lt_is_Some_2 b i Hb) as [v ->].
  reflexivity.
Qed.

Lemma orthant_step_length (grad0 : DoubleVector) (i : nat) (o : DoubleVector) :
  length (orthant_step grad0 i o) = length o.
Proof.
  unfold orthant_step. destruct (Req_dec_T (at_ o i) 0); [apply length_insert|reflexivity].
Qed.

Lemma orthant_rounds (x0 grad0 : DoubleVector) (n : nat) :
  (n <= length x0)%nat ->
  let o := for_range n (orthant_step grad0) x0 in
  length o = length x0 /\
  (forall i, (i < n)%nat ->
     at_ o i = if Req_dec_T (at_ x0 i) 0 then - at_ grad0 i else at_ x0 i) /\
  (forall i, (n <= i)%nat -> at_ o i = at_ x0 i).
Proof.
  induction n as [|n IH]; intros Hn; cbv zeta.
  - rewrite for_range_0. repeat split; auto. intros i Hi; lia.
  - rewrite for_range_S.
    destruct IH as (Hlen & Hlow & Hhigh); [lia|].
    set (o := for_range n (orthant_step grad0) x0) in *.
    split; [rewrite orthant_step_length; exact Hlen|].
    assert (Hin : (n < length o)%nat) by lia.
    unfold orthant_step. rewrite (Hhigh n) by lia.
    split.
    + intros i Hi. destruct (decide (n = i)) as [<-|Hne].
      * destruct (Req_dec_T (at_ x0 n) 0).
        -- rewrite at_insert by assumption.
           destruct (decide (n = n)); [reflexivity|congruence].
        -- apply Hhigh; lia.
      * assert (Hi' : (i < n)%nat) by lia.
        destruct (Req_dec_T (at_ x0 n) 0).
        -- rewrite at_insert by assumption.
           destruct (decide (n = i)); [congruence|]. apply Hlow; exact Hi'.
        -- apply Hlow; exact Hi'.
    + intros i Hi. destruct (Req_dec_T (at_ x0 n) 0).
      * rewrite at_insert by assumption.
        destruct (decide (n = i)); [lia|]. apply Hhigh; lia.
      * apply Hhigh; lia.
Qed.

(** The loop of [ConstrainedLineSearch] builds the vector the spec
    describes. *)
Lemma orthant_of_spec (x0 grad0 : DoubleVector) :
  length grad0 = length x0 ->
  orthant_of x0 grad0 = orthant_spec x0 grad0.
Proof.
  intros Hlen. unfold orthant_of, orthant_spec.
  destruct (orthant_rounds x0 grad0 (length x0)) as (Hl & Hlow & _); [lia|].
  apply at_ext.
  - rewrite Hl, length_zip_with. lia.
  - intros i Hi. rewrite Hl in Hi.
    rewrite (Hlow i Hi), at_zip_with by lia. reflexivity.
Qed.

(** ** ConstrainedLineSearch *)

Section LineSearch.

Variable FunctionGradient : list R -> R * list R.
Variables (C : R) (x0 grad0 : DoubleVector) (f0 : R) (dx orthant : DoubleVector).

Let trial (t : R) : DoubleVector := Project (vadd x0 (vscale t dx)) orthant.
Let ok (x : DoubleVector) : Prop := sufficient_decrease FunctionGradient C x0 grad0 f0 x.
Let beta_pow (t : R) (j : nat) : R := t * LINE_SEARCH_BETA ^ S j.

Lemma beta_pow_0 (t : R) : beta_pow t 0 = t * LINE_SEARCH_BETA.
Proof. unfold beta_pow. simpl. ring. Qed.

Lemma beta_pow_S (t : R) (j : nat) :
  beta_pow t (S j) = beta_pow (t * LINE_SEARCH_BETA) j.
Proof. unfold beta_pow. simpl. ring. Qed.

(** One trial of the do-while loop. *)
Lemma backtrack_unfold (fuel : nat) (t : R) :
  backtrack FunctionGradient (S fuel) C x0 grad0 f0 dx orthant t =
  if Rgt_dec (fst (RegularizedFuncGrad FunctionGradient C (trial (t * LINE_SEARCH_BETA))))
             (f0 + LINE_SEARCH_ALPHA *
                   DotProduct (vsub (trial (t * LINE_SEARCH_BETA)) x0) grad0)
  then backtrack FunctionGradient fuel C x0 grad0 f0 dx orthant (t * LINE_SEARCH_BETA)
  else Some (accepted_result FunctionGradient C (trial (t * LINE_SEARCH_BETA))).
Proof.
  unfold accepted_result, trial. simpl.
  destruct (RegularizedFuncGrad FunctionGradient C
              (Project (vadd x0 (vscale (t * LINE_SEARCH_BETA) dx)) orthant))
    as [f grad1].
  reflexivity.
Qed.

Lemma backtrack_accepts (k : nat) :
  forall (fuel : nat) (t : R),
  (forall j, (j < k)%nat -> ~ ok (trial (beta_pow t j))) ->
  ok (trial (beta_pow t k)) ->
  (k < fuel)%nat ->
  backtrack FunctionGradient fuel C x0 grad0 f0 dx orthant t =
  Some (accepted_result FunctionGradient C (trial (beta_pow t k))).
Proof.
  induction k as [|k IH]; intros fuel t Hrej Hok Hfuel;
    (destruct fuel as [|fuel]; [lia|]); rewrite backtrack_unfold.
  - rewrite beta_pow_0 in Hok.
    destruct (Rgt_dec _ _) as [Hgt|_].
    + unfold ok, sufficient_decrease in Hok. unfold LINE_SEARCH_ALPHA in Hgt. lra.
    + rewrite beta_pow_0. reflexivity.
  - destruct (Rgt_dec _ _) as [_|Hle].
    + rewrite beta_pow_S. apply IH; [|rewrite <- beta_pow_S; exact Hok|lia].
      intros j Hj. rewrite <- beta_pow_S. apply Hrej. lia.
    + exfalso. apply (Hrej 0%nat); [lia|].
      rewrite beta_pow_0. unfold ok, sufficient_decrease.
      unfold LINE_SEARCH_ALPHA in Hle. lra.
Qed.

Lemma backtrack_returns (fuel : nat) :
  forall (t : R) (r : R * DoubleVector * DoubleVector),
  backtrack FunctionGradient fuel C x0 grad0 f0 dx orthant t = Some r ->
  exists k, (k < fuel)%nat /\
    (forall j, (j < k)%nat -> ~ ok (trial (beta_pow t j))) /\
    ok (trial (beta_pow t k)) /\
    r = accepted_result FunctionGradient C (trial (beta_pow t k)).
Proof.
  induction fuel as [|fuel IH]; intros t r Hr; [discriminate|].
  rewrite backtrack_unfold in Hr.
  destruct (Rgt_dec _ _) as [Hgt|Hle].
  - destruct (IH _ _ Hr) as (k & Hk & Hrej & Hok & ->).
    exists (S k). rewrite beta_pow_S. split; [lia|]. split; [|split; auto].
    intros [|j] Hj.
    + rewrite beta_pow_0. unfold ok, sufficient_decrease.
      unfold LINE_SEARCH_ALPHA in Hgt. lra.
    + rewrite beta_pow_S. apply Hrej. lia.
  - exists 0%nat. rewrite beta_pow_0. split; [lia|]. split; [intros j Hj; lia|].
    split; [|congruence].
    unfold ok, sufficient_decrease. unfold LINE_SEARCH_ALPHA in Hle. lra.
Qed.

(** Without an accepted trial the loop uses up any bound. *)
Lemma backtrack_rejects (fuel : nat) :
  forall t : R,
  (forall j, (j < fuel)%nat -> ~ ok (trial (beta_pow t j))) ->
  backtrack FunctionGradient fuel C x0 grad0 f0 dx orthant t = None.
Proof.
  intros t Hrej.
  destruct (backtrack FunctionGradient fuel C x0 grad0 f0 dx orthant t)
    as [r|] eqn:Hr; [|reflexivity].
  destruct (backtrack_returns fuel t r Hr) as (k & Hk & _ & Hok & _).
  exfalso. exact (Hrej k Hk Hok).
Qed.

End LineSearch.

Lemma first_step_size (k : nat) :
  1 / LINE_SEARCH_BETA * LINE_SEARCH_BETA ^ S k = trial_step k.
Proof. unfold LINE_SEARCH_BETA, trial_step. simpl. field. Qed.

(** C2: [ConstrainedLineSearch(C, x0, pg0, f0, dx, x, grad1)], when it
    returns, returns the regularized objective value of the first trial
    point, in the sequence of step sizes [t = 1, 1/2, 1/4, ...] (the first
    one is exactly 1), that satisfies [f <= f0 + 0.1*((x - x0)·pg0)]; the
    trial point for [t] is [x0 + t*dx] projected onto the orthant reference
    vector, which is [x0] except where [x0_i = 0], where it is [-pg0_i]; the
    outputs [x] and [grad1] are that point and the smooth gradient at it.
    Conversely it does return as soon as such a trial exists and the bound on
    the number of trials is above its index. *)
Theorem ConstrainedLineSearch_first_accepted
    (FunctionGradient : list R -> R * list R)
    (C : R) (x0 pg0 : DoubleVector) (f0 : R) (dx : DoubleVector) :
  length pg0 = length x0 ->
  let accepted k :=
    sufficient_decrease FunctionGradient C x0 pg0 f0 (trial_point x0 pg0 dx k) in
  let result k := accepted_result FunctionGradient C (trial_point x0 pg0 dx k) in
  trial_step 0 = 1 /\
  (forall fuel r,
     ConstrainedLineSearch FunctionGradient fuel C x0 pg0 f0 dx = Some r ->
     exists k, (k < fuel)%nat /\
       (forall j, (j < k)%nat -> ~ accepted j) /\ accepted k /\ r = result k) /\
  (forall fuel k,
     (forall j, (j < k)%nat -> ~ accepted j) -> accepted k -> (k < fuel)%nat ->
     ConstrainedLineSearch FunctionGradient fuel C x0 pg0 f0 dx = Some (result k)).
Proof.
  intros Hlen accepted result. subst accepted result.
  unfold ConstrainedLineSearch, trial_point.
  rewrite (orthant_of_spec x0 pg0 Hlen).
  split; [reflexivity|]. split.
  - intros fuel r Hr.
    destruct (backtrack_returns _ _ _ _ _ _ _ _ _ _ Hr) as (k & Hk & Hrej & Hok & ->).
    exists k. rewrite first_step_size in Hok |- *.
    repeat split; auto.
    intros j Hj. rewrite <- first_step_size. apply Hrej; exact Hj.
  - intros fuel k Hrej Hok Hfuel.
    rewrite <- first_step_size.
    apply backtrack_accepts; [|rewrite first_step_size; exact Hok|exact Hfuel].
    intros j Hj. rewrite first_step_size. apply Hrej; exact Hj.
Qed.

(** ** Deciding the tests of the code on given numbers *)

Ltac Rdecide :=
  repeat match goal with
  | |- context [Req_dec_T ?a ?b] => destruct (Req_dec_T a b); try lra
  | |- context [Rlt_dec ?a ?b] => destruct (Rlt_dec a b); try lra
  | |- context [Rgt_dec ?a ?b] => destruct (Rgt_dec a b); try lra
  | |- context [Rge_dec ?a ?b] => destruct (Rge_dec a b); try lra
  | |- context [Z.eq_dec ?a ?b] =>
      destruct (Z.eq_dec a b); try discriminate; try congruence
  end.

(** ** Dot product and projection *)

Lemma DotProduct_cons (a b : R) (u v : DoubleVector) :
  DotProduct (a :: u) (b :: v) = a * b + DotProduct u v.
Proof. reflexivity. Qed.

Lemma DotProduct_nil_r (u : DoubleVector) : DotProduct u [] = 0.
Proof. destruct u; reflexivity. Qed.

Lemma DotProduct_self_nonneg (u : DoubleVector) : 0 <= DotProduct u u.
Proof.
  induction u as [|a u IH]; [cbn; lra|].
  rewrite DotProduct_cons. nra.
Qed.

Lemma Project_length (v ref : DoubleVector) :
  length ref = length v -> length (Project v ref) = length v.
Proof. intros H. unfold Project. rewrite length_zip_with. lia. Qed.

(** The sign test of the projection is the test [v_i * ref_i <= 0] on the
    product: a coordinate is kept exactly when it and the reference are both
    positive or both negative (a zero coordinate stays zero either way). *)
Lemma Project_product_test (v ref : DoubleVector) :
  Project v ref =
  zip_with (fun vi ri => if Rle_dec (vi * ri) 0 then 0 else vi) v ref.
Proof.
  unfold Project. revert ref.
  induction v as [|vi v IH]; intros [|ri ref]; try reflexivity.
  cbn [zip_with]. rewrite IH. f_equal.
  unfold Sign. destruct (Rle_dec (vi * ri) 0); Rdecide; try reflexivity; nra.
Qed.

(** A coordinate kept or zeroed by the projection onto [-pg], times the
    coordinate of [pg]. *)
Lemma projected_coordinate (d p : R) :
  let d' := if Z.eq_dec (Sign d) (Sign (-1 * p)) then d else 0 in
  d' * p <= 0 /\ (d' * p < 0 <-> d * p < 0).
Proof.
  cbv zeta. unfold Sign. Rdecide; split; try split; intros; try nra.
Qed.

Lemma Project_descent (dx pg : DoubleVector) :
  DotProduct (Project dx (vscale (-1) pg)) pg <= 0 /\
  (DotProduct (Project dx (vscale (-1) pg)) pg < 0 <->
   exists i, (i < length dx)%nat /\ (i < length pg)%nat /\ at_ dx i * at_ pg i < 0).
Proof.
  revert pg. induction dx as [|d dx IH]; intros pg.
  - cbn. split; [lra|]. split; [lra|]. intros (i & Hi & _); cbn in Hi; lia.
  - destruct pg as [|p pg].
    + cbn. split; [lra|]. split; [lra|]. intros (i & _ & Hi & _); cbn in Hi; lia.
    + destruct (IH pg) as (Hle & Hlt).
      destruct (projected_coordinate d p) as (Hc & Hs). cbv zeta in Hc, Hs.
      change (Project (d :: dx) (vscale (-1) (p :: pg)))
        with ((if Z.eq_dec (Sign d) (Sign (-1 * p)) then d else 0)
              :: Project dx (vscale (-1) pg)).
      rewrite DotProduct_cons. split; [lra|]. split.
      * intros Hneg.
        destruct (Rlt_dec (DotProduct (Project dx (vscale (-1) pg)) pg) 0) as [Hr|Hr].
        -- destruct (proj1 Hlt Hr) as (i & Hi & Hi' & Hi'').
           exists (S i). rewrite !at_cons_S. cbn [length]. repeat split; auto; lia.
        -- exists 0%nat. rewrite !at_cons_0. cbn [length].
           repeat split; try lia. apply Hs. lra.
      * intros ([|i] & Hi & Hi' & Hi'').
        -- rewrite !at_cons_0 in Hi''. apply Hs in Hi''. lra.
        -- rewrite !at_cons_S in Hi''. cbn [length] in Hi, Hi'.
           assert (DotProduct (Project dx (vscale (-1) pg)) pg < 0); [|lra].
           apply Hlt. exists i. repeat split; auto; lia.
Qed.

(** C3, as the code has it: when the direction [dx = -ApproximateHg(pg)]
    has [dx·pg >= 0], the driver replaces it by its projection onto the
    orthant of [-pg]; the projected direction has [dx·pg <= 0], and
    [dx·pg < 0] exactly when some coordinate of [dx] has the strict sign of
    the same coordinate of [-pg] (so that the projection leaves a nonzero
    coordinate). *)
Theorem SearchDirection_projected (hg pg : DoubleVector) :
  let dx := vscale (-1) hg in
  DotProduct dx pg >= 0 ->
  SearchDirection hg pg = Project dx (vscale (-1) pg) /\
  DotProduct (SearchDirection hg pg) pg <= 0 /\
  (DotProduct (SearchDirection hg pg) pg < 0 <->
   exists i, (i < length dx)%nat /\ (i < length pg)%nat /\ at_ dx i * at_ pg i < 0).
Proof.
  intros dx Hge. unfold SearchDirection. fold dx.
  destruct (Rge_dec (DotProduct dx pg) 0) as [_|Hn]; [|contradiction].
  split; [reflexivity|]. apply Project_descent.
Qed.

Lemma SearchDirection_projected_witness :
  SearchDirection [1; -2] [1; 1]
  = Project (vscale (-1) [1; -2]) (vscale (-1) [1; 1]) /\
  DotProduct (SearchDirection [1; -2] [1; 1]) [1; 1] <= 0.
Proof.
  destruct (SearchDirection_projected [1; -2] [1; 1]) as (H1 & H2 & _).
  - cbn. lra.
  - split; [exact H1|exact H2].
Defined.

(** C3 as the spec words it fails: for [ApproximateHg(pg) = [-1]] at
    [pg = [1]] the direction [dx = [1]] has [dx·pg = 1 >= 0], the projection
    onto the orthant of [-pg] zeroes its only coordinate, and [dx·pg = 0]. *)
Lemma SearchDirection_not_strict :
  DotProduct (vscale (-1) [-1]) [1] >= 0 /\
  SearchDirection [-1] [1] = [0] /\
  ~ DotProduct (SearchDirection [-1] [1]) [1] < 0.
Proof.
  assert (H : SearchDirection [-1] [1] = [0]).
  { unfold SearchDirection. cbn. unfold Sign. Rdecide. }
  split; [cbn; lra|]. split; [exact H|]. rewrite H. cbn. lra.
Qed.

Lemma ConstrainedLineSearch_first_accepted_witness :
  ConstrainedLineSearch bowl_oracle 5 0 [0] [-1] (1 / 2) [3]
  = Some (accepted_result bowl_oracle 0 (trial_point [0] [-1] [3] 1)).
Proof.
  assert (H0 : trial_point [0] [-1] [3] 0 = [3]).
  { unfold trial_point, trial_step. cbn. unfold Sign. Rdecide. f_equal. lra. }
  assert (H1 : trial_point [0] [-1] [3] 1 = [3 / 2]).
  { unfold trial_point, trial_step. cbn. unfold Sign. Rdecide. f_equal. lra. }
  destruct (ConstrainedLineSearch_first_accepted bowl_oracle 0 [0] [-1] (1 / 2) [3])
    as (_ & _ & H); [reflexivity|].
  apply H.
  - intros j Hj. assert (j = 0%nat) as -> by lia.
    rewrite H0. unfold sufficient_decrease. cbn. lra.
  - rewrite H1. unfold sufficient_decrease. cbn. lra.
  - lia.
Defined.

(** ** The outer loop of PerformOWLQN *)

Section Driver.

Variable FunctionGradient : list R -> R * list R.
Variable ApproximateHg :
  nat -> DoubleVector -> list DoubleVector -> list DoubleVector ->
  list quotient -> DoubleVector.

Local Abbreviation iter_ := (owlqn_iter FunctionGradient ApproximateHg).
Local Abbreviation loop_ := (owlqn_loop FunctionGradient ApproximateHg).

Lemma owlqn_iter_break (fuel : nat) (C : R) (st : owlqn_state) :
  pg_norm C st < MIN_GRAD_NORM -> iter_ fuel C st = Break.
Proof.
  intros H. unfold owlqn_iter. fold (pg_norm C st).
  destruct (Rlt_dec (pg_norm C st) MIN_GRAD_NORM); [reflexivity|contradiction].
Qed.

(** The body past stopping criterion 2: direction, line search, history. *)
Lemma owlqn_iter_proceed (fuel : nat) (C : R) (st : owlqn_state) :
  ~ pg_norm C st < MIN_GRAD_NORM ->
  iter_ fuel C st =
  let pg := PseudoGradient (st_x st) (st_grad st) C in
  let dx := owlqn_direction ApproximateHg C st in
  match ConstrainedLineSearch FunctionGradient fuel C (st_x st) pg (st_f st) dx with
  | None => Diverge
  | Some (f, x1, grad1) =>
      let k := (st_iter st mod OWLQN_M)%nat in
      let s := <[k := vsub x1 (st_x st)]> (st_s st) in
      let y := <[k := vsub grad1 (st_grad st)]> (st_y st) in
      let z :=
        <[k := fdiv 1 (DotProduct (default [] (y !! k))
                                   (default [] (s !! k)))]> (st_z st) in
      Continue (OwlqnState (S (st_iter st)) x1 grad1 f s y z)
  end.
Proof.
  intros H. unfold owlqn_iter. fold (pg_norm C st).
  destruct (Rlt_dec (pg_norm C st) MIN_GRAD_NORM); [contradiction|reflexivity].
Qed.

Lemma owlqn_iter_continue_iter (fuel : nat) (C : R) (st st' : owlqn_state) :
  iter_ fuel C st = Continue st' -> st_iter st' = S (st_iter st).
Proof.
  unfold owlqn_iter. destruct (Rlt_dec _ _); [discriminate|].
  destruct (ConstrainedLineSearch _ _ _ _ _ _ _) as [[[f x1] grad1]|];
    [|discriminate].
  intros [= <-]. reflexivity.
Qed.

Lemma owlqn_iter_continue_far (fuel : nat) (C : R) (st st' : owlqn_state) :
  iter_ fuel C st = Continue st' -> ~ pg_norm C st < MIN_GRAD_NORM.
Proof.
  unfold owlqn_iter. fold (pg_norm C st).
  destruct (Rlt_dec _ _); [discriminate|]. intros _. assumption.
Qed.

(** The counter on leaving the loop, and why the loop was left. *)
Lemma owlqn_loop_count (remaining : nat) :
  forall (fuel : nat) (C : R) (st st' : owlqn_state),
  loop_ remaining fuel C st = Some st' ->
  (st_iter st <= st_iter st' <= st_iter st + remaining)%nat /\
  ((st_iter st' < st_iter st + remaining)%nat -> pg_norm C st' < MIN_GRAD_NORM).
Proof.
  induction remaining as [|n IH]; intros fuel C st st' H; simpl in H.
  - injection H as <-. split; lia.
  - destruct (iter_ fuel C st) as [|st1|] eqn:E; [| |discriminate].
    + injection H as <-. split; [lia|]. intros _.
      unfold owlqn_iter in E. fold (pg_norm C st) in E.
      destruct (Rlt_dec (pg_norm C st) MIN_GRAD_NORM); [assumption|].
      destruct (ConstrainedLineSearch _ _ _ _ _ _ _) as [[[f x1] grad1]|];
        discriminate.
    + apply owlqn_iter_continue_iter in E.
      destruct (IH _ _ _ _ H) as (Hle & Hstop). rewrite E in Hle, Hstop.
      split; [lia|]. intros Hlt. apply Hstop. lia.
Qed.

Lemma owlqn_init_fields (z0 : list quotient) (x0 : list R) (C : R) :
  owlqn_init FunctionGradient z0 x0 C =
  OwlqnState 0 x0 (snd (RegularizedFuncGrad FunctionGradient C x0))
             (fst (RegularizedFuncGrad FunctionGradient C x0))
             (replicate OWLQN_M []) (replicate OWLQN_M []) z0.
Proof.
  unfold owlqn_init.
  destruct (RegularizedFuncGrad FunctionGradient C x0) as [f grad]. reflexivity.
Qed.

(** C4: [PerformOWLQN] is the outer loop run from the state that holds
    [x0], the objective value and the gradient at [x0], and the counter 0,
    and it returns the [x] of the state in which the loop is left.  The loop
    runs its body at most [OWLQN_MAX_ITER = 300] times (the counter [iter]
    is at most 300 when the loop is left, and when it is below 300 the loop
    was left through stopping criterion 2; with no iteration remaining the
    current state is returned).  At the start of each iteration, if the
    Euclidean norm of the pseudo-gradient at the current point is below
    [1e-4] the loop ends at once and the current [x] is returned; otherwise
    the iteration goes on to the direction and the line search. *)
Theorem PerformOWLQN_stopping (fuel : nat) (C : R) :
  OWLQN_MAX_ITER = 300%nat /\ MIN_GRAD_NORM = 1 / 10000 /\
  (forall z0 x0,
     PerformOWLQN FunctionGradient ApproximateHg fuel z0 x0 C =
     st_x <$> loop_ OWLQN_MAX_ITER fuel C
                (OwlqnState 0 x0
                   (snd (RegularizedFuncGrad FunctionGradient C x0))
                   (fst (RegularizedFuncGrad FunctionGradient C x0))
                   (replicate OWLQN_M []) (replicate OWLQN_M []) z0)) /\
  (forall st, loop_ 0 fuel C st = Some st) /\
  (forall z0 x0 st,
     owlqn_final FunctionGradient ApproximateHg fuel z0 x0 C = Some st ->
     PerformOWLQN FunctionGradient ApproximateHg fuel z0 x0 C = Some (st_x st) /\
     (st_iter st <= 300)%nat /\
     ((st_iter st < 300)%nat -> pg_norm C st < MIN_GRAD_NORM)) /\
  (forall remaining st,
     pg_norm C st < MIN_GRAD_NORM ->
     loop_ (S remaining) fuel C st = Some st) /\
  (forall remaining st,
     ~ pg_norm C st < MIN_GRAD_NORM ->
     let pg := PseudoGradient (st_x st) (st_grad st) C in
     let dx := owlqn_direction ApproximateHg C st in
     match ConstrainedLineSearch FunctionGradient fuel C (st_x st) pg (st_f st) dx with
     | None => loop_ (S remaining) fuel C st = None
     | Some (f, x1, grad1) =>
         exists st', iter_ fuel C st = Continue st' /\
           st_iter st' = S (st_iter st) /\ st_x st' = x1 /\
           st_grad st' = grad1 /\ st_f st' = f /\
           loop_ (S remaining) fuel C st = loop_ remaining fuel C st'
     end).
Proof.
  split; [reflexivity|]. split; [reflexivity|].
  split; [|split; [|split; [|split]]].
  - intros z0 x0. unfold PerformOWLQN, owlqn_final.
    rewrite owlqn_init_fields. reflexivity.
  - intros st. reflexivity.
  - intros z0 x0 st H. unfold PerformOWLQN. rewrite H. split; [reflexivity|].
    unfold owlqn_final in H. apply owlqn_loop_count in H.
    rewrite owlqn_init_fields in H. unfold OWLQN_MAX_ITER in H. simpl in H.
    destruct H as (Hle & Hstop). split; [lia|exact Hstop].
  - intros remaining st H. simpl. rewrite owlqn_iter_break by assumption.
    reflexivity.
  - intros remaining st H. cbv zeta. simpl owlqn_loop.
    rewrite (owlqn_iter_proceed fuel C st H). cbv zeta.
    destruct (ConstrainedLineSearch _ _ _ _ _ _ _) as [[[f x1] grad1]|];
      [|reflexivity].
    eexists. split; [reflexivity|]. simpl. repeat split; reflexivity.
Qed.

(** C9: if the pseudo-gradient of the regularized objective at [x0] has
    Euclidean norm below [1e-4], [PerformOWLQN(x0, C)] returns [x0]
    unchanged; the loop is left in its initial state, before any direction
    or line search (the result does not depend on the bound of the line
    search, which may be 0) and with the history arrays as they were. *)
Theorem PerformOWLQN_converged_start (fuel : nat) (z0 : list quotient)
    (x0 : list R) (C : R) :
  sqrt (DotProduct
          (PseudoGradient x0 (snd (RegularizedFuncGrad FunctionGradient C x0)) C)
          (PseudoGradient x0 (snd (RegularizedFuncGrad FunctionGradient C x0)) C))
  < 1 / 10000 ->
  PerformOWLQN FunctionGradient ApproximateHg fuel z0 x0 C = Some x0 /\
  PerformOWLQN FunctionGradient ApproximateHg 0 z0 x0 C = Some x0 /\
  iter_ fuel C (owlqn_init FunctionGradient z0 x0 C) = Break /\
  exists st,
    owlqn_final FunctionGradient ApproximateHg fuel z0 x0 C = Some st /\
    st_iter st = 0%nat /\ st_x st = x0 /\
    st_s st = replicate OWLQN_M [] /\ st_y st = replicate OWLQN_M [] /\
    st_z st = z0.
Proof.
  intros Hsmall.
  assert (Hn : pg_norm C (owlqn_init FunctionGradient z0 x0 C) < MIN_GRAD_NORM).
  { rewrite owlqn_init_fields. unfold pg_norm, MIN_GRAD_NORM. simpl. exact Hsmall. }
  assert (Hrun : forall fl,
    owlqn_final FunctionGradient ApproximateHg fl z0 x0 C
    = Some (owlqn_init FunctionGradient z0 x0 C)).
  { intros fl. unfold owlqn_final, OWLQN_MAX_ITER. simpl.
    rewrite owlqn_iter_break by assumption. reflexivity. }
  unfold PerformOWLQN. rewrite !Hrun.
  split; [|split; [|split]].
  - rewrite owlqn_init_fields. reflexivity.
  - rewrite owlqn_init_fields. reflexivity.
  - apply owlqn_iter_break; assumption.
  - eexists. split; [reflexivity|]. rewrite owlqn_init_fields. simpl.
    repeat split; reflexivity.
Qed.

End Driver.

(** The driver on the constant loss with [C = 1], started at the origin:
    the pseudo-gradient is zero there. *)
Lemma flat_origin_pg :
  PseudoGradient [0; 0] (snd (RegularizedFuncGrad flat_oracle 1 [0; 0])) 1 = [0; 0].
Proof.
  rewrite RegularizedFuncGrad_pair. cbn [snd flat_oracle map].
  unfold PseudoGradient, for_range. cbn [length seq fold_left].
  unfold PseudoGradient_step. cbn. Rdecide. cbn. Rdecide. reflexivity.
Qed.

Lemma flat_origin_norm :
  sqrt (DotProduct
          (PseudoGradient [0; 0] (snd (RegularizedFuncGrad flat_oracle 1 [0; 0])) 1)
          (PseudoGradient [0; 0] (snd (RegularizedFuncGrad flat_oracle 1 [0; 0])) 1))
  < 1 / 10000.
Proof.
  rewrite flat_origin_pg.
  replace (DotProduct [0; 0] [0; 0]) with 0 by (cbn; lra).
  rewrite sqrt_0. lra.
Qed.

Lemma PerformOWLQN_converged_start_witness :
  PerformOWLQN flat_oracle identity_Hg 0 (replicate 10 NonFinite) [0; 0] 1
  = Some [0; 0].
Proof.
  destruct (PerformOWLQN_converged_start flat_oracle identity_Hg 0
              (replicate 10 NonFinite) [0; 0] 1 flat_origin_norm) as (H & _).
  exact H.
Defined.

(** ** The history arrays *)

Section History.

Variable FunctionGradient : list R -> R * list R.
Variable ApproximateHg :
  nat -> DoubleVector -> list DoubleVector -> list DoubleVector ->
  list quotient -> DoubleVector.

Local Abbreviation iter_ := (owlqn_iter FunctionGradient ApproximateHg).
Local Abbreviation loop_ := (owlqn_loop FunctionGradient ApproximateHg).

(** A property kept by every completed iteration holds when the loop is
    left. *)
Lemma owlqn_loop_invariant (P : owlqn_state -> Prop) (fuel : nat) (C : R) :
  (forall st st', P st -> iter_ fuel C st = Continue st' -> P st') ->
  forall (n : nat) (st st' : owlqn_state),
  P st -> loop_ n fuel C st = Some st' -> P st'.
Proof.
  intros Hstep. induction n as [|n IH]; intros st st' HP H; simpl in H.
  - injection H as <-. exact HP.
  - destruct (iter_ fuel C st) as [|st1|] eqn:E; [| |discriminate].
    + injection H as <-. exact HP.
    + apply (IH st1 st'); [|exact H]. apply (Hstep st st1); assumption.
Qed.

Lemma fdiv_zero (a d : R) : d = 0 -> fdiv a d = NonFinite.
Proof. intros H. unfold fdiv. destruct (Req_dec_T d 0); [reflexivity|contradiction]. Qed.

Lemma fdiv_nonzero (a d : R) : d <> 0 -> fdiv a d = Finite (a / d).
Proof. intros H. unfold fdiv. destruct (Req_dec_T d 0); [contradiction|reflexivity]. Qed.

(** Lines 100-102: what a completed iteration leaves in slot
    [iter % OWLQN_M] of the three arrays. *)
Lemma owlqn_iter_history (fuel : nat) (C : R) (st st' : owlqn_state) :
  history_sized st ->
  iter_ fuel C st = Continue st' ->
  let k := (st_iter st mod OWLQN_M)%nat in
  let sk := vsub (st_x st') (st_x st) in
  let yk := vsub (st_grad st') (st_grad st) in
  history_sized st' /\
  st_s st' !! k = Some sk /\ st_y st' !! k = Some yk /\
  st_z st' !! k = Some (fdiv 1 (DotProduct yk sk)).
Proof.
  intros (Hs & Hy & Hz) H. cbv zeta.
  assert (Hk : (st_iter st mod OWLQN_M < OWLQN_M)%nat)
    by (apply Nat.mod_upper_bound; discriminate).
  unfold owlqn_iter in H. destruct (Rlt_dec _ _); [discriminate|].
  destruct (ConstrainedLineSearch _ _ _ _ _ _ _) as [[[f x1] grad1]|];
    [|discriminate].
  cbv zeta in H. set (k := (st_iter st mod OWLQN_M)%nat) in *.
  injection H as <-. cbn [st_s st_y st_z st_x st_grad].
  unfold history_sized. cbn [st_s st_y st_z]. rewrite !length_insert.
  split; [auto|].
  rewrite !list_lookup_insert_eq by lia. cbn [default from_option id].
  auto.
Qed.

Lemma owlqn_init_sized (z0 : list quotient) (x0 : list R) (C : R) :
  length z0 = OWLQN_M -> history_sized (owlqn_init FunctionGradient z0 x0 C).
Proof.
  intros Hz. unfold owlqn_init.
  destruct (RegularizedFuncGrad FunctionGradient C x0) as [f grad].
  unfold history_sized. cbn [st_s st_y st_z]. rewrite !length_replicate. auto.
Qed.

Lemma owlqn_loop_sized (fuel : nat) (C : R) (n : nat) (st st' : owlqn_state) :
  history_sized st -> loop_ n fuel C st = Some st' -> history_sized st'.
Proof.
  apply owlqn_loop_invariant. intros st1 st2 H1 H2.
  destruct (owlqn_iter_history fuel C st1 st2 H1 H2) as (H & _). exact H.
Qed.

(** C6, as the code has it: the division that defines
    [rho_k = 1.0 / (y_k·s_k)] is not guarded.  Every iteration whose line
    search returns writes [s_k = x1 - x], [y_k = grad1 - grad] and the
    quotient into slot [iter % 10] of the history; when [y_k·s_k = 0] the
    stored quotient is the non-finite double.  The next iteration either
    ends the loop at stopping criterion 2, before any call of
    [ApproximateHg], or it searches along the direction it gets from
    [ApproximateHg] applied to the three arrays as they are, that slot
    included. *)
Theorem history_rho_unguarded (fuel : nat) (C : R) (z0 : list quotient)
    (x0 : list R) (n : nat) (st st' : owlqn_state) :
  length z0 = OWLQN_M ->
  loop_ n fuel C (owlqn_init FunctionGradient z0 x0 C) = Some st ->
  iter_ fuel C st = Continue st' ->
  let k := (st_iter st mod OWLQN_M)%nat in
  let sk := vsub (st_x st') (st_x st) in
  let yk := vsub (st_grad st') (st_grad st) in
  let pg' := PseudoGradient (st_x st') (st_grad st') C in
  let dx' :=
    SearchDirection
      (ApproximateHg (S (st_iter st)) pg' (st_s st') (st_y st') (st_z st')) pg' in
  st_s st' !! k = Some sk /\ st_y st' !! k = Some yk /\
  st_z st' !! k = Some (fdiv 1 (DotProduct yk sk)) /\
  (DotProduct yk sk = 0 -> st_z st' !! k = Some NonFinite) /\
  (DotProduct yk sk <> 0 ->
   st_z st' !! k = Some (Finite (1 / DotProduct yk sk))) /\
  owlqn_direction ApproximateHg C st' = dx' /\
  (pg_norm C st' < MIN_GRAD_NORM ->
   forall fuel', iter_ fuel' C st' = Break) /\
  (~ pg_norm C st' < MIN_GRAD_NORM ->
   forall fuel',
   iter_ fuel' C st' =
   match ConstrainedLineSearch FunctionGradient fuel' C (st_x st') pg'
           (st_f st') dx' with
   | None => Diverge
   | Some (f, x1, grad1) =>
       let k' := (S (st_iter st) mod OWLQN_M)%nat in
       let s := <[k' := vsub x1 (st_x st')]> (st_s st') in
       let y := <[k' := vsub grad1 (st_grad st')]> (st_y st') in
       let z :=
         <[k' := fdiv 1 (DotProduct (default [] (y !! k'))
                                     (default [] (s !! k')))]> (st_z st') in
       Continue (OwlqnState (S (S (st_iter st))) x1 grad1 f s y z)
   end).
Proof.
  intros Hz Hrun Hit. cbv zeta.
  assert (Hsized : history_sized st).
  { apply (owlqn_loop_sized fuel C n _ st (owlqn_init_sized z0 x0 C Hz) Hrun). }
  destruct (owlqn_iter_history fuel C st st' Hsized Hit) as (_ & Hs & Hy & Hq).
  cbv zeta in Hs, Hy, Hq.
  pose proof (owlqn_iter_continue_iter _ _ _ _ _ _ Hit) as Hi.
  repeat split; auto.
  - intros H0. rewrite Hq, (fdiv_zero 1 _ H0). reflexivity.
  - intros H0. rewrite Hq, (fdiv_nonzero 1 _ H0). reflexivity.
  - unfold owlqn_direction. rewrite Hi. reflexivity.
  - intros Hsmall fuel'. apply owlqn_iter_break. exact Hsmall.
  - intros Hfar fuel'. rewrite (owlqn_iter_proceed _ _ _ _ _ Hfar). cbv zeta.
    unfold owlqn_direction. rewrite Hi. reflexivity.
Qed.

End History.

(** The first iteration of the driver on the linear loss [-x], from
    [x0 = [0]] with [C = 0]: the pseudo-gradient is [[-1]], the direction
    [[1]], the first trial [x = [1]] is accepted, and the smooth gradient is
    [[-1]] again. *)
Lemma slope_first_iteration :
  exists st',
    owlqn_iter slope_oracle identity_Hg 1 0
      (owlqn_init slope_oracle (replicate 10 (Finite 0)) [0] 0) = Continue st' /\
    st_x st' = [1] /\ st_grad st' = [-1].
Proof.
  rewrite owlqn_init_fields, RegularizedFuncGrad_pair.
  cbn [fst snd slope_oracle map foldr l1_norm].
  assert (Hpg : PseudoGradient [0] [-1] 0 = [-1]).
  { unfold PseudoGradient, for_range. cbn [length seq fold_left].
    unfold PseudoGradient_step. cbn. Rdecide. cbn. f_equal. lra. }
  rewrite owlqn_iter_proceed.
  2:{ unfold pg_norm. cbn [st_x st_grad]. rewrite Hpg.
      replace (DotProduct [-1] [-1]) with 1 by (cbn; lra).
      rewrite sqrt_1. unfold MIN_GRAD_NORM. lra. }
  cbv zeta. unfold owlqn_direction. cbn [st_x st_grad st_f st_iter st_s st_y st_z].
  rewrite Hpg. unfold identity_Hg.
  assert (Hdx : SearchDirection [-1] [-1] = [1]).
  { unfold SearchDirection. cbn. Rdecide. f_equal. lra. }
  rewrite Hdx.
  unfold ConstrainedLineSearch. rewrite backtrack_unfold.
  assert (Ho : orthant_of [0] [-1] = [1]).
  { unfold orthant_of, for_range. cbn [length seq fold_left].
    unfold orthant_step. cbn. Rdecide. cbn. f_equal. lra. }
  rewrite Ho.
  assert (Hx : Project (vadd [0] (vscale (1 / LINE_SEARCH_BETA * LINE_SEARCH_BETA) [1])) [1]
               = [1]).
  { unfold LINE_SEARCH_BETA, Project. cbn. unfold Sign. Rdecide. f_equal. lra. }
  rewrite Hx. rewrite RegularizedFuncGrad_pair.
  cbn [fst snd slope_oracle map foldr l1_norm].
  destruct (Rgt_dec _ _) as [Hgt|_].
  { exfalso. unfold LINE_SEARCH_ALPHA in Hgt. cbn in Hgt. lra. }
  unfold accepted_result. rewrite RegularizedFuncGrad_pair.
  cbn [fst snd slope_oracle map foldr l1_norm].
  eexists. split; [reflexivity|]. split; reflexivity.
Qed.

Lemma slope_init_fields :
  st_x (owlqn_init slope_oracle (replicate 10 (Finite 0)) [0] 0) = [0] /\
  st_grad (owlqn_init slope_oracle (replicate 10 (Finite 0)) [0] 0) = [-1] /\
  st_iter (owlqn_init slope_oracle (replicate 10 (Finite 0)) [0] 0) = 0%nat.
Proof.
  rewrite owlqn_init_fields, RegularizedFuncGrad_pair. repeat split; reflexivity.
Qed.

Lemma history_rho_unguarded_witness :
  exists st',
    owlqn_iter slope_oracle identity_Hg 1 0
      (owlqn_init slope_oracle (replicate 10 (Finite 0)) [0] 0) = Continue st' /\
    st_z st' !! 0%nat = Some NonFinite /\
    owlqn_iter slope_oracle identity_Hg 1 0 st' <> Break.
Proof.
  destruct slope_first_iteration as (st' & Hit & Hx & Hg).
  destruct slope_init_fields as (Hx0 & Hg0 & Hi0).
  exists st'. split; [exact Hit|].
  destruct (history_rho_unguarded slope_oracle identity_Hg 1 0
              (replicate 10 (Finite 0)) [0] 0 _ st' eq_refl eq_refl Hit)
    as (_ & _ & _ & H0 & _ & _ & _ & Hnext).
  rewrite Hi0 in H0. split.
  - apply H0. rewrite Hx, Hg, Hx0, Hg0. cbn. lra.
  - rewrite Hnext.
    + destruct (ConstrainedLineSearch _ _ _ _ _ _ _) as [[[f x1] grad1]|];
        discriminate.
    + unfold pg_norm. rewrite Hx, Hg.
      assert (Hpg : PseudoGradient [1] [-1] 0 = [-1]).
      { unfold PseudoGradient, for_range. cbn [length seq fold_left].
        unfold PseudoGradient_step. cbn. Rdecide. cbn. f_equal. lra. }
      rewrite Hpg. replace (DotProduct [-1] [-1]) with 1 by (cbn; lra).
      rewrite sqrt_1. unfold MIN_GRAD_NORM. lra.
Defined.

(** C6 as the spec words it fails: on the linear loss [-x], from [x0 = [0]]
    with [C = 0], the first iteration produces [s_0 = [1]] and [y_0 = [0]],
    so [y_0·s_0 = 0]; the division is carried out all the same, slot 0 of
    [z] holds the non-finite quotient, and the second iteration hands that
    array to [ApproximateHg]. *)
Lemma history_rho_not_guarded :
  exists st',
    owlqn_iter slope_oracle identity_Hg 1 0
      (owlqn_init slope_oracle (replicate 10 (Finite 0)) [0] 0) = Continue st' /\
    st_s st' !! 0%nat = Some (vsub [1] [0]) /\
    st_y st' !! 0%nat = Some (vsub [-1] [-1]) /\
    DotProduct (vsub [-1] [-1]) (vsub [1] [0]) = 0 /\
    st_z st' !! 0%nat = Some NonFinite /\
    owlqn_direction identity_Hg 0 st' =
    SearchDirection
      (identity_Hg 1 (PseudoGradient (st_x st') (st_grad st') 0)
                   (st_s st') (st_y st') (st_z st'))
      (PseudoGradient (st_x st') (st_grad st') 0).
Proof.
  destruct slope_first_iteration as (st' & Hit & Hx & Hg).
  destruct slope_init_fields as (Hx0 & Hg0 & Hi0).
  exists st'. split; [exact Hit|].
  assert (Hd : DotProduct (vsub [-1] [-1]) (vsub [1] [0]) = 0) by (cbn; lra).
  split; [|split; [|split; [exact Hd|split; [|reflexivity]]]];
  destruct (owlqn_iter_history slope_oracle identity_Hg 1 0 _ st'
              (owlqn_init_sized slope_oracle (replicate 10 (Finite 0)) [0] 0 eq_refl)
              Hit) as (_ & Hs & Hy & Hq);
  cbv zeta in Hs, Hy, Hq; rewrite Hi0, Hx, Hg, Hx0, Hg0 in *;
  rewrite (fdiv_zero 1 _ Hd) in Hq; assumption.
Qed.

(** ** The line search without an accepted trial *)

Lemma trial_step_pos (k : nat) : 0 < trial_step k.
Proof. unfold trial_step. apply pow_lt. lra. Qed.

Lemma trial_step_halves (k : nat) : trial_step (S k) = trial_step k / 2.
Proof. unfold trial_step. simpl. lra. Qed.

Lemma trial_step_vanishes (eps : R) :
  0 < eps -> exists k, trial_step k < eps.
Proof.
  intros Heps.
  destruct (pow_lt_1_zero (1 / 2)) with (y := eps) as [N HN]; [|exact Heps|].
  - rewrite Rabs_right; lra.
  - exists N. specialize (HN N (Nat.le_refl N)).
    unfold trial_step. rewrite Rabs_right in HN; [exact HN|].
    apply Rle_ge, pow_le. lra.
Qed.

(** The line search run on its bound: no trial passes the test. *)
Lemma ConstrainedLineSearch_rejects (FunctionGradient : list R -> R * list R)
    (C : R) (x0 pg0 : DoubleVector) (f0 : R) (dx : DoubleVector) (fuel : nat) :
  length pg0 = length x0 ->
  (forall k, (k < fuel)%nat ->
     ~ sufficient_decrease FunctionGradient C x0 pg0 f0 (trial_point x0 pg0 dx k)) ->
  ConstrainedLineSearch FunctionGradient fuel C x0 pg0 f0 dx = None.
Proof.
  intros Hlen Hrej. unfold ConstrainedLineSearch.
  rewrite (orthant_of_spec x0 pg0 Hlen).
  apply backtrack_rejects. intros j Hj. rewrite first_step_size.
  apply Hrej; exact Hj.
Qed.

(** The constant objective 0 against [f0 = -1]: every trial is rejected. *)
Lemma flat_trial_rejected (k : nat) :
  ~ sufficient_decrease flat_oracle 0 [0] [-1] (-1) (trial_point [0] [-1] [1] k).
Proof.
  pose proof (trial_step_pos k) as Ht.
  unfold sufficient_decrease, trial_point. rewrite RegularizedFuncGrad_pair.
  set (t := trial_step k) in *.
  cbn. unfold Sign. Rdecide; cbn; lra.
Qed.

(** C7: the backtracking loop of [ConstrainedLineSearch] has no bound on
    the number of shrinks.  There are an objective and inputs [C], [x0],
    [pg0], [f0], [dx] for which no trial point satisfies the
    sufficient-decrease test: whatever number of trials is allowed, the loop
    has not returned after them, while the step size is halved at every
    trial and falls below every positive number. *)
Theorem ConstrainedLineSearch_may_not_return :
  exists (FunctionGradient : list R -> R * list R)
         (C : R) (x0 pg0 : DoubleVector) (f0 : R) (dx : DoubleVector),
    (forall k,
       ~ sufficient_decrease FunctionGradient C x0 pg0 f0
           (trial_point x0 pg0 dx k)) /\
    (forall fuel,
       ConstrainedLineSearch FunctionGradient fuel C x0 pg0 f0 dx = None) /\
    (forall k, 0 < trial_step (S k) /\ trial_step (S k) = trial_step k / 2) /\
    (forall eps, 0 < eps -> exists k, trial_step k < eps).
Proof.
  exists flat_oracle, 0, [0], [-1], (-1), [1].
  split; [exact flat_trial_rejected|]. split; [|split].
  - intros fuel. apply ConstrainedLineSearch_rejects; [reflexivity|].
    intros k _. apply flat_trial_rejected.
  - intros k. split; [apply trial_step_pos|apply trial_step_halves].
  - exact trial_step_vanishes.
Qed.

(** ** Descent *)

Lemma DotProduct_comm (u v : DoubleVector) : DotProduct u v = DotProduct v u.
Proof.
  revert v. induction u as [|a u IH]; intros [|b v]; try reflexivity.
  rewrite !DotProduct_cons, IH. ring.
Qed.

Lemma PseudoGradient_zip (x grad : DoubleVector) (C : R) :
  length grad = length x ->
  PseudoGradient x grad C = zip_with (pg_spec C) x grad.
Proof.
  intros Hlen. apply at_ext.
  - rewrite PseudoGradient_length, length_zip_with by assumption. lia.
  - intros i Hi. rewrite PseudoGradient_length in Hi by assumption.
    rewrite PseudoGradient_at, at_zip_with by lia. reflexivity.
Qed.

(** The pseudo-gradient coordinate is a subgradient of
    [gi * x + C * |x|] at [xi]. *)
Lemma pg_spec_subgradient (C xi gi xi' : R) :
  0 <= C ->
  pg_spec C xi gi * (xi' - xi) <= gi * (xi' - xi) + C * Rabs xi' - C * Rabs xi.
Proof.
  intros HC. unfold pg_spec, Sign, Rabs.
  destruct (Rcase_abs xi'), (Rcase_abs xi); Rdecide;
    cbn [IZR IPR IPR_2];
    repeat match goal with
           | H : ~ _ < _ |- _ => apply Rnot_lt_le in H
           end; try nra.
Qed.

Lemma pseudo_gradient_l1 (C : R) (x : DoubleVector) :
  0 <= C ->
  forall grad x' : DoubleVector,
  length grad = length x -> length x' = length x ->
  DotProduct (zip_with (pg_spec C) x grad) (vsub x' x)
  <= DotProduct grad (vsub x' x) + C * l1_norm x' - C * l1_norm x.
Proof.
  intros HC. induction x as [|xi x IH]; intros [|gi grad] [|xi' x'] Hg Hx;
    try discriminate.
  - cbn. lra.
  - cbn [zip_with vsub]. fold (vsub x' x). rewrite !DotProduct_cons.
    cbn [l1_norm foldr]. fold (l1_norm x') (l1_norm x).
    specialize (IH grad x'). cbn [length] in Hg, Hx.
    assert (H1 := IH ltac:(lia) ltac:(lia)).
    pose proof (pg_spec_subgradient C xi gi xi' HC). lra.
Qed.

Lemma SearchDirection_length (hg pg : DoubleVector) :
  length hg = length pg -> length (SearchDirection hg pg) = length pg.
Proof.
  intros H. unfold SearchDirection.
  destruct (Rge_dec _ _).
  - unfold Project, vscale. rewrite length_zip_with, !length_map. lia.
  - unfold vscale. rewrite length_map. exact H.
Qed.

Lemma orthant_of_length (x0 grad0 : DoubleVector) :
  length (orthant_of x0 grad0) = length x0.
Proof.
  unfold orthant_of.
  destruct (orthant_rounds x0 grad0 (length x0)) as (H & _); [lia|exact H].
Qed.

Section Descent.

Variable FunctionGradient : list R -> R * list R.
Variable ApproximateHg :
  nat -> DoubleVector -> list DoubleVector -> list DoubleVector ->
  list quotient -> DoubleVector.

Hypothesis oracle_has_size : oracle_sized FunctionGradient.
Hypothesis oracle_is_convex : oracle_convex FunctionGradient.
Hypothesis ApproximateHg_length :
  forall iter pg s y z, length (ApproximateHg iter pg s y z) = length pg.

Local Abbreviation iter_ := (owlqn_iter FunctionGradient ApproximateHg).
Local Abbreviation loop_ := (owlqn_loop FunctionGradient ApproximateHg).
Local Abbreviation F_ := (RegularizedFuncGrad FunctionGradient).

(** What a returning line search hands back. *)
Lemma ConstrainedLineSearch_result (fuel : nat) (C : R) (x0 pg0 : DoubleVector)
    (f0 : R) (dx : DoubleVector) (r : R * DoubleVector * DoubleVector) :
  length dx = length x0 ->
  ConstrainedLineSearch FunctionGradient fuel C x0 pg0 f0 dx = Some r ->
  exists x, r = accepted_result FunctionGradient C x /\
    length x = length x0 /\
    sufficient_decrease FunctionGradient C x0 pg0 f0 x.
Proof.
  intros Hdx Hr. unfold ConstrainedLineSearch in Hr.
  destruct (backtrack_returns _ _ _ _ _ _ _ _ _ _ Hr) as (k & _ & _ & Hok & ->).
  eexists. split; [reflexivity|]. split; [|exact Hok].
  unfold Project, vadd, vscale.
  rewrite !length_zip_with, length_map, orthant_of_length. lia.
Qed.

(** The pseudo-gradient is a subgradient of the regularized objective. *)
Lemma pseudo_gradient_subgradient (C : R) (x x' : DoubleVector) :
  0 <= C -> length x' = length x ->
  fst (F_ C x)
  + DotProduct (PseudoGradient x (snd (F_ C x)) C) (vsub x' x)
  <= fst (F_ C x').
Proof.
  intros HC Hlen. rewrite !RegularizedFuncGrad_pair. cbn [fst snd].
  rewrite PseudoGradient_zip by apply oracle_has_size.
  pose proof (pseudo_gradient_l1 C x HC (snd (FunctionGradient x)) x'
                (oracle_has_size x) Hlen).
  pose proof (oracle_is_convex x x' Hlen). lra.
Qed.

(** A completed iteration: the test it passed, and the state it leaves. *)
Lemma owlqn_iter_descends (fuel : nat) (C : R) (st st' : owlqn_state) :
  0 <= C ->
  consistent FunctionGradient C st ->
  iter_ fuel C st = Continue st' ->
  consistent FunctionGradient C st' /\
  st_f st' <= st_f st
              + 1 / 10 * DotProduct (vsub (st_x st') (st_x st))
                                    (PseudoGradient (st_x st) (st_grad st) C) /\
  st_f st' <= st_f st.
Proof.
  intros HC (Hlen & Hf & Hg) Hit.
  rewrite (owlqn_iter_proceed _ _ _ _ _ (owlqn_iter_continue_far _ _ _ _ _ _ Hit))
    in Hit.
  cbv zeta in Hit.
  destruct (ConstrainedLineSearch _ _ _ _ _ _ _) as [r|] eqn:Hls;
    [|discriminate].
  apply ConstrainedLineSearch_result in Hls.
  2:{ unfold owlqn_direction. rewrite SearchDirection_length.
      - apply PseudoGradient_length; exact Hlen.
      - apply ApproximateHg_length. }
  destruct Hls as (x1 & -> & Hx1 & Hok).
  unfold accepted_result in Hit. injection Hit as <-.
  cbn [st_x st_f st_grad]. unfold consistent. cbn [st_x st_f st_grad].
  split.
  { split; [|split; reflexivity].
    rewrite RegularizedFuncGrad_pair. cbn [snd]. apply oracle_has_size. }
  unfold sufficient_decrease in Hok. split; [exact Hok|].
  pose proof (pseudo_gradient_subgradient C (st_x st) x1 HC Hx1) as Hsub.
  rewrite <- Hg, <- Hf in Hsub.
  rewrite DotProduct_comm in Hsub. lra.
Qed.

Lemma owlqn_init_consistent (z0 : list quotient) (x0 : list R) (C : R) :
  consistent FunctionGradient C (owlqn_init FunctionGradient z0 x0 C).
Proof.
  rewrite owlqn_init_fields. unfold consistent. cbn [st_x st_f st_grad].
  split; [|split; reflexivity].
  rewrite RegularizedFuncGrad_pair. cbn [snd]. apply oracle_has_size.
Qed.

(** C5: across consecutive accepted iterations of the driver the
    regularized objective value does not increase.  For an oracle as the
    spec assumes it (a convex smooth loss with its gradient) and [C >= 0],
    every iteration [k] of [PerformOWLQN] at which the line search returns
    has [f] at iteration [k+1] [<=] [f] at iteration [k]; this follows from
    the acceptance test [f <= f0 + 0.1*((x - x0)·pg0)], which the new
    state passed. *)
Theorem owlqn_monotone_descent (fuel : nat) (C : R) (z0 : list quotient)
    (x0 : list R) (k : nat) (st st' : owlqn_state) :
  0 <= C ->
  loop_ k fuel C (owlqn_init FunctionGradient z0 x0 C) = Some st ->
  iter_ fuel C st = Continue st' ->
  st_f st' <= st_f st
              + 1 / 10 * DotProduct (vsub (st_x st') (st_x st))
                                    (PseudoGradient (st_x st) (st_grad st) C) /\
  st_f st' <= st_f st.
Proof.
  intros HC Hrun Hit.
  assert (Hcons : consistent FunctionGradient C st).
  { apply (owlqn_loop_invariant FunctionGradient ApproximateHg
             (consistent FunctionGradient C) fuel C) with (n := k)
      (st := owlqn_init FunctionGradient z0 x0 C).
    - intros s1 s2 H1 H2.
      destruct (owlqn_iter_descends fuel C s1 s2 HC H1 H2) as (H & _). exact H.
    - apply owlqn_init_consistent.
    - exact Hrun. }
  destruct (owlqn_iter_descends fuel C st st' HC Hcons Hit) as (_ & H).
  exact H.
Qed.

End Descent.

Lemma slope_oracle_sized : oracle_sized slope_oracle.
Proof. intros x. cbn. apply length_map. Qed.

Lemma slope_oracle_convex : oracle_convex slope_oracle.
Proof.
  intros x. induction x as [|xi x IH]; intros [|xi' x'] Hlen; try discriminate.
  - cbn. lra.
  - cbn [length] in Hlen. specialize (IH x' ltac:(lia)).
    cbn [slope_oracle fst snd foldr map vsub zip_with] in *.
    fold (vsub x' x). rewrite DotProduct_cons. lra.
Qed.

Lemma owlqn_monotone_descent_witness :
  exists st',
    owlqn_iter slope_oracle identity_Hg 1 0
      (owlqn_init slope_oracle (replicate 10 (Finite 0)) [0] 0) = Continue st' /\
    st_f st' <= st_f (owlqn_init slope_oracle (replicate 10 (Finite 0)) [0] 0).
Proof.
  destruct slope_first_iteration as (st' & Hit & _).
  exists st'. split; [exact Hit|].
  destruct (owlqn_monotone_descent slope_oracle identity_Hg
              slope_oracle_sized slope_oracle_convex
              (fun _ _ _ _ _ => eq_refl) 1 0 (replicate 10 (Finite 0)) [0] 0 _ st'
              (Rle_refl 0) eq_refl Hit) as (_ & H).
  exact H.
Defined.

(** * Further properties of owlqn.cc *)

(** ** Shape and symmetry of the pseudo-gradient *)

Lemma at_map (g : R -> R) (v : DoubleVector) (i : nat) :
  (i < length v)%nat -> at_ (map g v) i = g (at_ v i).
Proof.
  intros Hi. unfold at_. rewrite list_lookup_fmap.
  destruct (lookup_lt_is_Some_2 v i Hi) as [u ->]. reflexivity.
Qed.

Lemma at_beyond (v : DoubleVector) (i : nat) :
  (length v <= i)%nat -> at_ v i = 0.
Proof. intros Hi. unfold at_. rewrite lookup_ge_None_2 by exact Hi. reflexivity. Qed.

(** X1: [PseudoGradient] returns a vector of the dimension of [grad0], and
    its loop, which runs over the indices of [x], leaves every coordinate of
    the copy of [grad0] past the end of [x] as it was; for an empty [x] the
    result is [grad0]. *)
Theorem PseudoGradient_shape (x grad0 : DoubleVector) (C : R) :
  (length x <= length grad0)%nat ->
  length (PseudoGradient x grad0 C) = length grad0 /\
  (forall i, (length x <= i)%nat ->
     PseudoGradient x grad0 C !! i = grad0 !! i) /\
  (x = [] -> PseudoGradient x grad0 C = grad0).
Proof.
  intros Hlen. unfold PseudoGradient.
  destruct (PseudoGradient_rounds x grad0 C (length x) Hlen) as (Hl & _ & Hhigh).
  cbv zeta in Hl, Hhigh. split; [exact Hl|]. split.
  - intros i Hi. specialize (Hhigh i Hi). unfold at_ in Hhigh.
    destruct (decide (i < length grad0)%nat) as [Hin|Hout].
    + destruct (lookup_lt_is_Some_2 grad0 i Hin) as [u Hu].
      destruct (lookup_lt_is_Some_2
                  (for_range (length x) (PseudoGradient_step x grad0 C) grad0) i)
        as [w Hw]; [lia|].
      rewrite Hu, Hw in Hhigh |- *. cbn in Hhigh. congruence.
    + rewrite !lookup_ge_None_2 by lia. reflexivity.
  - intros ->. reflexivity.
Qed.

Lemma PseudoGradient_shape_witness :
  length (PseudoGradient [0; 2] [5; 1; 7] 1) = 3%nat /\
  PseudoGradient [0; 2] [5; 1; 7] 1 !! 2%nat = Some 7.
Proof.
  destruct (PseudoGradient_shape [0; 2] [5; 1; 7] 1) as (H1 & H2 & _).
  - cbn. lia.
  - split; [exact H1|]. rewrite H2 by (cbn; lia). reflexivity.
Defined.

(** X2: a coordinate of the pseudo-gradient is zero exactly under the
    optimality condition of the L1-regularized objective in that
    coordinate: [grad_i = -C*sign(x_i)] where [x_i <> 0], and
    [-C <= grad_i <= C] where [x_i = 0]. *)
Theorem PseudoGradient_zero_iff (x grad : DoubleVector) (C : R) (i : nat) :
  length grad = length x ->
  (i < length x)%nat ->
  at_ (PseudoGradient x grad C) i = 0 <->
  (at_ x i <> 0 /\ at_ grad i = - C * IZR (Sign (at_ x i))) \/
  (at_ x i = 0 /\ - C <= at_ grad i <= C).
Proof.
  intros Hlen Hi. rewrite (PseudoGradient_at x grad C i Hlen Hi).
  unfold pg_spec. Rdecide; split; intros H;
    try (left; split; [assumption|lra]);
    try (right; split; [assumption|lra]);
    try (destruct H as [[H1 H2]|[H1 H2]]; try contradiction; lra).
Qed.

Lemma PseudoGradient_zero_iff_witness :
  at_ (PseudoGradient [0; 2] [1 / 2; -1] 1) 0 = 0 /\
  at_ (PseudoGradient [0; 2] [1 / 2; -1] 1) 1 = 0.
Proof.
  split.
  - apply (PseudoGradient_zero_iff [0; 2] [1 / 2; -1] 1 0);
      [reflexivity | cbn; lia |].
    right. rewrite !at_cons_0. lra.
  - apply (PseudoGradient_zero_iff [0; 2] [1 / 2; -1] 1 1);
      [reflexivity | cbn; lia |].
    left. rewrite !at_cons_S, !at_cons_0. split; [lra|].
    unfold Sign. destruct (Rlt_dec 0 2) as [_|Hn]; [cbn; lra|lra].
Defined.

(** X3: at a zero coordinate of the point, for [C >= 0], the
    pseudo-gradient is the smooth gradient shrunk towards zero by [C]: it
    has the sign of [grad_i] and the magnitude [max(|grad_i| - C, 0)]. *)
Theorem PseudoGradient_shrinks_at_zero (x grad : DoubleVector) (C : R) (i : nat) :
  length grad = length x ->
  (i < length x)%nat ->
  0 <= C ->
  at_ x i = 0 ->
  Rabs (at_ (PseudoGradient x grad C) i) = Rmax (Rabs (at_ grad i) - C) 0 /\
  0 <= at_ (PseudoGradient x grad C) i * at_ grad i.
Proof.
  intros Hlen Hi HC Hx. rewrite (PseudoGradient_at x grad C i Hlen Hi).
  unfold pg_spec. destruct (Req_dec_T (at_ x i) 0) as [_|Hn]; [|contradiction].
  unfold Rmax, Rabs.
  repeat match goal with
         | |- context [Rcase_abs ?a] => destruct (Rcase_abs a)
         | |- context [Rlt_dec ?a ?b] => destruct (Rlt_dec a b)
         | |- context [Rle_dec ?a ?b] => destruct (Rle_dec a b)
         end; split; nra.
Qed.

Lemma PseudoGradient_shrinks_at_zero_witness :
  Rabs (at_ (PseudoGradient [0; 2] [3; -1] 1) 0) = Rmax (Rabs 3 - 1) 0.
Proof.
  destruct (PseudoGradient_shrinks_at_zero [0; 2] [3; -1] 1 0) as (H & _);
    [reflexivity | cbn; lia | lra | reflexivity |].
  exact H.
Defined.

(** X4: for [C >= 0] the pseudo-gradient is odd: negating the point and the
    smooth gradient negates the pseudo-gradient. *)
Theorem PseudoGradient_odd (x grad : DoubleVector) (C : R) :
  length grad = length x ->
  0 <= C ->
  PseudoGradient (map Ropp x) (map Ropp grad) C
  = map Ropp (PseudoGradient x grad C).
Proof.
  intros Hlen HC. apply at_ext.
  - rewrite length_map, !PseudoGradient_length; rewrite ?length_map; auto.
  - intros i Hi.
    rewrite PseudoGradient_length in Hi by (rewrite !length_map; exact Hlen).
    rewrite length_map in Hi.
    rewrite PseudoGradient_at by (rewrite ?length_map; auto).
    rewrite !at_map by (rewrite ?PseudoGradient_length; auto; lia).
    rewrite PseudoGradient_at by auto.
    unfold pg_spec, Sign. Rdecide; cbn [IZR IPR IPR_2]; lra.
Qed.

Lemma PseudoGradient_odd_witness :
  PseudoGradient (map Ropp [0; 2]) (map Ropp [3; -1]) 1
  = map Ropp (PseudoGradient [0; 2] [3; -1] 1).
Proof.
  apply (PseudoGradient_odd [0; 2] [3; -1] 1); [reflexivity|lra].
Defined.

(** ** The regularized objective *)

(** X5: [RegularizedFuncGrad] never changes the gradient the oracle wrote;
    with [C = 0] it returns the oracle's pair as it is, and for
    [0 <= C <= C'] the returned value lies between the smooth loss and the
    value for [C']. *)
Theorem RegularizedFuncGrad_monotone (FunctionGradient : list R -> R * list R)
    (C C' : R) (x : DoubleVector) :
  0 <= C -> C <= C' ->
  RegularizedFuncGrad FunctionGradient 0 x = FunctionGradient x /\
  snd (RegularizedFuncGrad FunctionGradient C x)
  = snd (RegularizedFuncGrad FunctionGradient C' x) /\
  fst (FunctionGradient x) <= fst (RegularizedFuncGrad FunctionGradient C x) /\
  fst (RegularizedFuncGrad FunctionGradient C x)
  <= fst (RegularizedFuncGrad FunctionGradient C' x).
Proof.
  intros HC HC'. rewrite !RegularizedFuncGrad_pair. cbn [fst snd].
  pose proof (l1_norm_nonneg x) as Hn.
  split; [|split; [reflexivity|split; nra]].
  destruct (FunctionGradient x) as [f grad]. cbn [fst snd]. f_equal. lra.
Qed.

Lemma RegularizedFuncGrad_monotone_witness :
  fst (RegularizedFuncGrad bowl_oracle 1 [3; -2])
  <= fst (RegularizedFuncGrad bowl_oracle 2 [3; -2]).
Proof.
  destruct (RegularizedFuncGrad_monotone bowl_oracle 1 2 [3; -2])
    as (_ & _ & _ & H); [lra | lra | exact H].
Defined.

(** ** The search direction *)

(** X6: whatever [ApproximateHg] returns, the direction the driver hands to
    the line search is never an ascent direction for the pseudo-gradient:
    [dx·pg <= 0], and [dx] is [-ApproximateHg(pg)] itself when that already
    has [dx·pg < 0]. *)
Theorem SearchDirection_never_ascent (hg pg : DoubleVector) :
  DotProduct (SearchDirection hg pg) pg <= 0 /\
  (DotProduct (vscale (-1) hg) pg < 0 -> SearchDirection hg pg = vscale (-1) hg).
Proof.
  unfold SearchDirection.
  destruct (Rge_dec (DotProduct (vscale (-1) hg) pg) 0) as [Hge|Hlt].
  - split; [apply Project_descent|]. intros H. lra.
  - split; [lra|]. reflexivity.
Qed.

Lemma SearchDirection_never_ascent_witness :
  SearchDirection [3; 1] [1; 2] = vscale (-1) [3; 1].
Proof.
  destruct (SearchDirection_never_ascent [3; 1] [1; 2]) as (_ & H).
  apply H. cbn. lra.
Defined.

(** ** The line search and the orthant *)

Lemma at_Project (v ref : DoubleVector) (i : nat) :
  (i < length v)%nat -> (i < length ref)%nat ->
  at_ (Project v ref) i
  = if Z.eq_dec (Sign (at_ v i)) (Sign (at_ ref i)) then at_ v i else 0.
Proof. intros Hv Hr. unfold Project. rewrite at_zip_with by assumption. reflexivity. Qed.

(** The point a returning line search writes to [x]: a projected trial. *)
Lemma ConstrainedLineSearch_point (FunctionGradient : list R -> R * list R)
    (fuel : nat) (C : R) (x0 pg0 : DoubleVector) (f0 : R) (dx : DoubleVector)
    (r : R * DoubleVector * DoubleVector) :
  ConstrainedLineSearch FunctionGradient fuel C x0 pg0 f0 dx = Some r ->
  exists t, 0 < t /\
    r = accepted_result FunctionGradient C
          (Project (vadd x0 (vscale t dx)) (orthant_of x0 pg0)) /\
    sufficient_decrease FunctionGradient C x0 pg0 f0
      (Project (vadd x0 (vscale t dx)) (orthant_of x0 pg0)).
Proof.
  intros Hr. unfold ConstrainedLineSearch in Hr.
  destruct (backtrack_returns _ _ _ _ _ _ _ _ _ _ Hr) as (k & _ & _ & Hok & ->).
  exists (1 / LINE_SEARCH_BETA * LINE_SEARCH_BETA ^ S k).
  split; [|split; [reflexivity|exact Hok]].
  rewrite first_step_size. apply trial_step_pos.
Qed.

(** X7: the point returned by [ConstrainedLineSearch] stays in the orthant
    of the search.  It has the dimension of [x0]; no coordinate has the sign
    opposite to that of [x0]; a coordinate that was zero has moved, if at
    all, against the sign of the pseudo-gradient; and a coordinate that was
    zero with a zero pseudo-gradient is still zero. *)
Theorem ConstrainedLineSearch_keeps_orthant
    (FunctionGradient : list R -> R * list R)
    (fuel : nat) (C : R) (x0 pg0 : DoubleVector) (f0 : R) (dx : DoubleVector)
    (f : R) (x grad1 : DoubleVector) :
  length pg0 = length x0 ->
  length dx = length x0 ->
  ConstrainedLineSearch FunctionGradient fuel C x0 pg0 f0 dx = Some (f, x, grad1) ->
  length x = length x0 /\
  forall i, (i < length x0)%nat ->
    0 <= at_ x i * at_ x0 i /\
    (at_ x0 i = 0 -> at_ x i * at_ pg0 i <= 0) /\
    (at_ x0 i = 0 -> at_ pg0 i = 0 -> at_ x i = 0).
Proof.
  intros Hpg Hdx Hr.
  destruct (ConstrainedLineSearch_point _ _ _ _ _ _ _ _ Hr) as (t & _ & Heq & _).
  unfold accepted_result in Heq. injection Heq as _ -> _.
  assert (Hlen : length (vadd x0 (vscale t dx)) = length x0).
  { unfold vadd, vscale. rewrite length_zip_with, length_map. lia. }
  split.
  { unfold Project. rewrite length_zip_with, orthant_of_length, Hlen. lia. }
  intros i Hi.
  rewrite at_Project by (rewrite ?orthant_of_length; lia).
  rewrite (orthant_of_spec x0 pg0 Hpg). unfold orthant_spec.
  rewrite at_zip_with by lia.
  set (v := at_ (vadd x0 (vscale t dx)) i).
  unfold Sign. Rdecide; repeat split; intros; try nra.
Qed.

(** The constant objective 0 against [f0 = 1]: the first trial is accepted. *)
Lemma flat_search_first_trial :
  ConstrainedLineSearch flat_oracle 1 0 [0] [-1] 1 [1]
  = Some (fst (RegularizedFuncGrad flat_oracle 0 [1]), [1],
          snd (RegularizedFuncGrad flat_oracle 0 [1])).
Proof.
  unfold ConstrainedLineSearch. rewrite backtrack_unfold.
  assert (Hx : Project (vadd [0] (vscale (1 / LINE_SEARCH_BETA * LINE_SEARCH_BETA) [1]))
                 (orthant_of [0] [-1]) = [1]).
  { unfold orthant_of, for_range. cbn [length seq fold_left].
    unfold orthant_step, LINE_SEARCH_BETA. cbn. unfold Sign.
    Rdecide; cbn; Rdecide; f_equal; lra. }
  rewrite Hx. destruct (Rgt_dec _ _) as [Hgt|_]; [|reflexivity].
  exfalso. rewrite RegularizedFuncGrad_pair in Hgt.
  unfold LINE_SEARCH_ALPHA in Hgt. cbn in Hgt. lra.
Qed.

Lemma ConstrainedLineSearch_keeps_orthant_witness :
  length [1] = 1%nat /\ 0 <= at_ [1] 0 * at_ [0] 0.
Proof.
  destruct (ConstrainedLineSearch_keeps_orthant flat_oracle 1 0 [0] [-1] 1 [1]
              _ _ _ eq_refl eq_refl flat_search_first_trial) as (Hl & Hc).
  split; [exact Hl|]. apply (Hc 0%nat). cbn. lia.
Defined.

(** ** A complete run *)

Lemma bowl_at_0 : RegularizedFuncGrad bowl_oracle 0 [0] = (1 / 2, [-1]).
Proof.
  rewrite RegularizedFuncGrad_pair. cbn. f_equal; [lra|]. f_equal. lra.
Qed.

Lemma bowl_at_1 : RegularizedFuncGrad bowl_oracle 0 [1] = (0, [0]).
Proof.
  rewrite RegularizedFuncGrad_pair. cbn. f_equal; [lra|]. f_equal. lra.
Qed.

(** The driver on the loss [(x - 1)^2 / 2] from [x0 = [0]] with [C = 0]:
    the first iteration steps to the minimum [[1]]. *)
Lemma bowl_first_iteration (z0 : list quotient) :
  exists st',
    owlqn_iter bowl_oracle identity_Hg 1 0 (owlqn_init bowl_oracle z0 [0] 0)
    = Continue st' /\
    st_x st' = [1] /\ st_grad st' = [0] /\ st_f st' = 0.
Proof.
  rewrite owlqn_init_fields, bowl_at_0. cbn [fst snd].
  assert (Hpg : PseudoGradient [0] [-1] 0 = [-1]).
  { unfold PseudoGradient, for_range. cbn [length seq fold_left].
    unfold PseudoGradient_step. cbn. Rdecide. cbn. f_equal. lra. }
  rewrite owlqn_iter_proceed.
  2:{ unfold pg_norm. cbn [st_x st_grad]. rewrite Hpg.
      replace (DotProduct [-1] [-1]) with 1 by (cbn; lra).
      rewrite sqrt_1. unfold MIN_GRAD_NORM. lra. }
  cbv zeta. unfold owlqn_direction. cbn [st_x st_grad st_f st_iter st_s st_y st_z].
  rewrite Hpg. unfold identity_Hg.
  assert (Hdx : SearchDirection [-1] [-1] = [1]).
  { unfold SearchDirection. cbn. Rdecide. f_equal. lra. }
  rewrite Hdx.
  unfold ConstrainedLineSearch. rewrite backtrack_unfold.
  assert (Ho : orthant_of [0] [-1] = [1]).
  { unfold orthant_of, for_range. cbn [length seq fold_left].
    unfold orthant_step. cbn. Rdecide. cbn. f_equal. lra. }
  rewrite Ho.
  assert (Hx : Project (vadd [0] (vscale (1 / LINE_SEARCH_BETA * LINE_SEARCH_BETA) [1])) [1]
               = [1]).
  { unfold LINE_SEARCH_BETA, Project. cbn. unfold Sign. Rdecide. f_equal. lra. }
  rewrite Hx, bowl_at_1. cbn [fst snd].
  destruct (Rgt_dec _ _) as [Hgt|_].
  { exfalso. unfold LINE_SEARCH_ALPHA in Hgt. cbn in Hgt. lra. }
  unfold accepted_result. rewrite bowl_at_1. cbn [fst snd].
  eexists. split; [reflexivity|]. repeat split; reflexivity.
Qed.

Lemma bowl_run (z0 : list quotient) :
  PerformOWLQN bowl_oracle identity_Hg 1 z0 [0] 0 = Some [1].
Proof.
  destruct (bowl_first_iteration z0) as (st' & Hit & Hx & Hg & _).
  unfold PerformOWLQN, owlqn_final, OWLQN_MAX_ITER.
  change 300%nat with (S (S 298)). cbn [owlqn_loop]. rewrite Hit.
  rewrite owlqn_iter_break.
  - cbn. rewrite Hx. reflexivity.
  - unfold pg_norm. rewrite Hx, Hg.
    assert (Hpg : PseudoGradient [1] [0] 0 = [0]).
    { unfold PseudoGradient, for_range. cbn [length seq fold_left].
      unfold PseudoGradient_step. cbn. Rdecide. cbn. f_equal. lra. }
    rewrite Hpg. replace (DotProduct [0] [0]) with 0 by (cbn; lra).
    rewrite sqrt_0. unfold MIN_GRAD_NORM. lra.
Qed.

(** ** What the driver keeps from one iteration to the next *)

Section Invariants.

Variable FunctionGradient : list R -> R * list R.
Variable ApproximateHg :
  nat -> DoubleVector -> list DoubleVector -> list DoubleVector ->
  list quotient -> DoubleVector.

Local Abbreviation iter_ := (owlqn_iter FunctionGradient ApproximateHg).
Local Abbreviation loop_ := (owlqn_loop FunctionGradient ApproximateHg).
Local Abbreviation F_ := (RegularizedFuncGrad FunctionGradient).

(** The state a completed iteration leaves holds a line-search result. *)
Lemma owlqn_iter_evaluated (fuel : nat) (C : R) (st st' : owlqn_state) :
  iter_ fuel C st = Continue st' ->
  st_f st' = fst (F_ C (st_x st')) /\ st_grad st' = snd (F_ C (st_x st')) /\
  ConstrainedLineSearch FunctionGradient fuel C (st_x st)
    (PseudoGradient (st_x st) (st_grad st) C) (st_f st)
    (owlqn_direction ApproximateHg C st)
  = Some (st_f st', st_x st', st_grad st').
Proof.
  intros Hit.
  rewrite (owlqn_iter_proceed _ _ _ _ _ (owlqn_iter_continue_far _ _ _ _ _ _ Hit))
    in Hit. cbv zeta in Hit.
  destruct (ConstrainedLineSearch _ _ _ _ _ _ _) as [r|] eqn:Hls; [|discriminate].
  destruct (ConstrainedLineSearch_point _ _ _ _ _ _ _ _ Hls) as (t & _ & -> & _).
  unfold accepted_result in Hit. injection Hit as <-.
  cbn [st_f st_x st_grad]. repeat split; reflexivity.
Qed.

(** X10: at the start of every iteration of [PerformOWLQN], [f] and [grad]
    are the regularized objective value and the smooth gradient at the
    current [x]: the driver never pairs a point with the value or the
    gradient of another one. *)
Theorem owlqn_state_evaluated (fuel : nat) (C : R) (z0 : list quotient)
    (x0 : list R) (n : nat) (st : owlqn_state) :
  loop_ n fuel C (owlqn_init FunctionGradient z0 x0 C) = Some st ->
  st_f st = fst (F_ C (st_x st)) /\ st_grad st = snd (F_ C (st_x st)).
Proof.
  apply (owlqn_loop_invariant FunctionGradient ApproximateHg
           (fun st => st_f st = fst (F_ C (st_x st)) /\
                      st_grad st = snd (F_ C (st_x st)))).
  - intros s1 s2 _ H. destruct (owlqn_iter_evaluated fuel C s1 s2 H) as (Hf & Hg & _).
    split; assumption.
  - rewrite owlqn_init_fields. split; reflexivity.
Qed.


(** X12: the history arrays of [PerformOWLQN] keep their [OWLQN_M = 10]
    slots through the whole run, so the index [iter % OWLQN_M] the driver
    writes at is always inside them. *)
Theorem owlqn_history_in_bounds (fuel : nat) (C : R) (z0 : list quotient)
    (x0 : list R) (n : nat) (st : owlqn_state) :
  length z0 = OWLQN_M ->
  loop_ n fuel C (owlqn_init FunctionGradient z0 x0 C) = Some st ->
  history_sized st /\
  (st_iter st mod OWLQN_M < length (st_s st))%nat /\
  (st_iter st mod OWLQN_M < length (st_y st))%nat /\
  (st_iter st mod OWLQN_M < length (st_z st))%nat.
Proof.
  intros Hz Hrun.
  assert (Hs : history_sized st).
  { apply (owlqn_loop_sized FunctionGradient ApproximateHg fuel C n _ st
             (owlqn_init_sized FunctionGradient z0 x0 C Hz) Hrun). }
  split; [exact Hs|]. destruct Hs as (H1 & H2 & H3). rewrite H1, H2, H3.
  assert (st_iter st mod OWLQN_M < OWLQN_M)%nat
    by (apply Nat.mod_upper_bound; discriminate).
  auto.
Qed.

Hypothesis oracle_has_size : oracle_sized FunctionGradient.
Hypothesis ApproximateHg_length :
  forall iter pg s y z, length (ApproximateHg iter pg s y z) = length pg.

Lemma owlqn_iter_dimension (fuel : nat) (C : R) (st st' : owlqn_state) :
  length (st_grad st) = length (st_x st) ->
  iter_ fuel C st = Continue st' ->
  length (st_x st') = length (st_x st) /\
  length (st_grad st') = length (st_x st').
Proof.
  intros Hlen Hit.
  destruct (owlqn_iter_evaluated fuel C st st' Hit) as (_ & Hg & Hls).
  apply ConstrainedLineSearch_result in Hls.
  - destruct Hls as (x1 & Heq & Hx1 & _).
    unfold accepted_result in Heq. injection Heq as _ Hx _.
    split; [rewrite Hx; exact Hx1|].
    rewrite Hg, RegularizedFuncGrad_pair. cbn [snd]. apply oracle_has_size.
  - unfold owlqn_direction. rewrite SearchDirection_length.
    + apply PseudoGradient_length; exact Hlen.
    + apply ApproximateHg_length.
Qed.

(** X13: when the oracle writes a gradient of the dimension of the point
    and [ApproximateHg] returns a vector of the dimension of the
    pseudo-gradient, the vector [PerformOWLQN] returns has the dimension of
    [x0]. *)
Theorem PerformOWLQN_dimension (fuel : nat) (z0 : list quotient)
    (x0 : list R) (C : R) (x : list R) :
  PerformOWLQN FunctionGradient ApproximateHg fuel z0 x0 C = Some x ->
  length x = length x0.
Proof.
  unfold PerformOWLQN, owlqn_final.
  destruct (loop_ OWLQN_MAX_ITER fuel C (owlqn_init FunctionGradient z0 x0 C))
    as [st|] eqn:Hrun; [|discriminate].
  intros [= <-].
  apply (owlqn_loop_invariant FunctionGradient ApproximateHg
           (fun st => length (st_x st) = length x0 /\
                      length (st_grad st) = length (st_x st)) fuel C)
    with (st' := st) in Hrun.
  - destruct Hrun as (H & _). exact H.
  - intros s1 s2 (H1 & H2) Hit.
    destruct (owlqn_iter_dimension fuel C s1 s2 H2 Hit) as (H3 & H4).
    split; [congruence|exact H4].
  - rewrite owlqn_init_fields. cbn [st_x st_grad]. split; [reflexivity|].
    rewrite RegularizedFuncGrad_pair. cbn [snd]. apply oracle_has_size.
Qed.

End Invariants.

Lemma bowl_one_iteration (z0 : list quotient) :
  exists st',
    owlqn_iter bowl_oracle identity_Hg 1 0 (owlqn_init bowl_oracle z0 [0] 0)
    = Continue st' /\
    owlqn_loop bowl_oracle identity_Hg 1 1 0 (owlqn_init bowl_oracle z0 [0] 0)
    = Some st'.
Proof.
  destruct (bowl_first_iteration z0) as (st' & Hit & _).
  exists st'. split; [exact Hit|]. cbn [owlqn_loop]. rewrite Hit. reflexivity.
Qed.

(** At the minimum [[1]] of the loss [(x - 1)^2 / 2] stopping criterion 2
    holds. *)
Lemma bowl_minimum_stops (st : owlqn_state) :
  st_x st = [1] -> st_grad st = [0] -> pg_norm 0 st < MIN_GRAD_NORM.
Proof.
  intros Hx Hg. unfold pg_norm. rewrite Hx, Hg.
  assert (Hpg : PseudoGradient [1] [0] 0 = [0]).
  { unfold PseudoGradient, for_range. cbn [length seq fold_left].
    unfold PseudoGradient_step. cbn. Rdecide. cbn. f_equal. lra. }
  rewrite Hpg. replace (DotProduct [0] [0]) with 0 by (cbn; lra).
  rewrite sqrt_0. unfold MIN_GRAD_NORM. lra.
Qed.

Lemma PerformOWLQN_stopping_witness :
  PerformOWLQN bowl_oracle identity_Hg 1 (replicate 10 NonFinite) [0] 0
  = Some [1].
Proof.
  destruct (PerformOWLQN_stopping bowl_oracle identity_Hg 1 0)
    as (_ & _ & Hrun & _ & _ & Hbreak & Hgo).
  rewrite Hrun.
  destruct (bowl_first_iteration (replicate 10 NonFinite))
    as (st' & Hit & Hx & Hg & _).
  rewrite owlqn_init_fields in Hit.
  pose proof (owlqn_iter_continue_far _ _ _ _ _ _ Hit) as Hfar.
  destruct (owlqn_iter_evaluated _ _ _ _ _ _ Hit) as (_ & _ & Hls).
  specialize (Hgo 299%nat _ Hfar). cbv zeta in Hgo. rewrite Hls in Hgo.
  destruct Hgo as (st1 & Hit1 & _ & _ & _ & _ & Hloop).
  rewrite Hit in Hit1. injection Hit1 as <-.
  unfold OWLQN_MAX_ITER. change 300%nat with (S 299). rewrite Hloop.
  change 299%nat with (S 298).
  rewrite (Hbreak 298%nat st' (bowl_minimum_stops st' Hx Hg)).
  cbn. rewrite Hx. reflexivity.
Defined.

Lemma owlqn_state_evaluated_witness :
  exists st',
    owlqn_loop bowl_oracle identity_Hg 1 1 0
      (owlqn_init bowl_oracle (replicate 10 NonFinite) [0] 0) = Some st' /\
    st_f st' = fst (RegularizedFuncGrad bowl_oracle 0 (st_x st')).
Proof.
  destruct (bowl_one_iteration (replicate 10 NonFinite)) as (st' & _ & Hrun).
  exists st'. split; [exact Hrun|].
  destruct (owlqn_state_evaluated bowl_oracle identity_Hg 1 0
              (replicate 10 NonFinite) [0] 1 st' Hrun) as (H & _).
  exact H.
Defined.


Lemma owlqn_history_in_bounds_witness :
  exists st',
    owlqn_loop bowl_oracle identity_Hg 1 1 0
      (owlqn_init bowl_oracle (replicate 10 NonFinite) [0] 0) = Some st' /\
    history_sized st'.
Proof.
  destruct (bowl_one_iteration (replicate 10 NonFinite)) as (st' & _ & Hrun).
  exists st'. split; [exact Hrun|].
  destruct (owlqn_history_in_bounds bowl_oracle identity_Hg 1 0
              (replicate 10 NonFinite) [0] 1 st' eq_refl Hrun) as (H & _).
  exact H.
Defined.

Lemma bowl_oracle_sized : oracle_sized bowl_oracle.
Proof. intros x. cbn. apply length_map. Qed.

Lemma PerformOWLQN_dimension_witness :
  length [1] = length [0].
Proof.
  apply (PerformOWLQN_dimension bowl_oracle identity_Hg bowl_oracle_sized
           (fun _ _ _ _ _ => eq_refl) 1 (replicate 10 NonFinite) [0] 0 [1]).
  apply bowl_run.
Defined.

(** ** With a convex oracle *)

Lemma DotProduct_zero_l (u v : DoubleVector) :
  (forall i, (i < length u)%nat -> at_ u i = 0) -> DotProduct u v = 0.
Proof.
  revert v. induction u as [|a u IH]; intros v H; [reflexivity|].
  destruct v as [|b v]; [reflexivity|].
  rewrite DotProduct_cons, IH.
  - specialize (H 0%nat). rewrite at_cons_0 in H. rewrite H by (cbn; lia). lra.
  - intros i Hi. specialize (H (S i)). rewrite at_cons_S in H.
    apply H. cbn. lia.
Qed.

Section Convex.

Variable FunctionGradient : list R -> R * list R.
Variable ApproximateHg :
  nat -> DoubleVector -> list DoubleVector -> list DoubleVector ->
  list quotient -> DoubleVector.

Hypothesis oracle_has_size : oracle_sized FunctionGradient.
Hypothesis oracle_is_convex : oracle_convex FunctionGradient.
Hypothesis ApproximateHg_length :
  forall iter pg s y z, length (ApproximateHg iter pg s y z) = length pg.

Local Abbreviation iter_ := (owlqn_iter FunctionGradient ApproximateHg).
Local Abbreviation loop_ := (owlqn_loop FunctionGradient ApproximateHg).
Local Abbreviation F_ := (RegularizedFuncGrad FunctionGradient).

(** X14: for a convex oracle and [C >= 0], the vector [PseudoGradient]
    builds from the output of [RegularizedFuncGrad] at [x] is a subgradient
    of the regularized objective at [x]: the objective at any [x'] is at
    least its value at [x] plus [pg·(x' - x)]. *)
Theorem PseudoGradient_is_subgradient (C : R) (x x' : DoubleVector) :
  0 <= C -> length x' = length x ->
  fst (F_ C x) + DotProduct (PseudoGradient x (snd (F_ C x)) C) (vsub x' x)
  <= fst (F_ C x').
Proof.
  intros HC Hlen.
  exact (pseudo_gradient_subgradient FunctionGradient oracle_has_size
           oracle_is_convex C x x' HC Hlen).
Qed.

(** X15: for a convex oracle and [C >= 0], a point at which every
    coordinate of the pseudo-gradient is zero minimizes the regularized
    objective over all points of its dimension. *)
Theorem PseudoGradient_zero_is_minimum (C : R) (x : DoubleVector) :
  0 <= C ->
  (forall i, (i < length x)%nat ->
     at_ (PseudoGradient x (snd (F_ C x)) C) i = 0) ->
  forall x', length x' = length x -> fst (F_ C x) <= fst (F_ C x').
Proof.
  intros HC Hzero x' Hlen.
  pose proof (pseudo_gradient_subgradient FunctionGradient oracle_has_size
                oracle_is_convex C x x' HC Hlen) as Hsub.
  rewrite DotProduct_zero_l in Hsub; [lra|].
  intros i Hi. apply Hzero.
  rewrite PseudoGradient_length in Hi; [exact Hi|].
  rewrite RegularizedFuncGrad_pair. cbn [snd]. apply oracle_has_size.
Qed.

Lemma owlqn_loop_descends (fuel : nat) (C : R) (n : nat) :
  0 <= C ->
  forall st st' : owlqn_state,
  consistent FunctionGradient C st ->
  loop_ n fuel C st = Some st' ->
  consistent FunctionGradient C st' /\ st_f st' <= st_f st.
Proof.
  intros HC. induction n as [|n IH]; intros st st' Hc H; simpl in H.
  - injection H as <-. split; [exact Hc|lra].
  - destruct (iter_ fuel C st) as [|st1|] eqn:E; [| |discriminate].
    + injection H as <-. split; [exact Hc|lra].
    + destruct (owlqn_iter_descends FunctionGradient ApproximateHg
                  oracle_has_size oracle_is_convex ApproximateHg_length
                  fuel C st st1 HC Hc E) as (Hc1 & _ & Hle).
      destruct (IH st1 st' Hc1 H) as (Hc' & Hle'). split; [exact Hc'|lra].
Qed.

(** X16: for a convex oracle and [C >= 0], the point [PerformOWLQN] returns
    is never worse than the starting point: the regularized objective at the
    returned [x] is at most its value at [x0]. *)
Theorem PerformOWLQN_never_worse (fuel : nat) (z0 : list quotient)
    (x0 : list R) (C : R) (x : list R) :
  0 <= C ->
  PerformOWLQN FunctionGradient ApproximateHg fuel z0 x0 C = Some x ->
  fst (F_ C x) <= fst (F_ C x0).
Proof.
  intros HC. unfold PerformOWLQN, owlqn_final.
  destruct (loop_ OWLQN_MAX_ITER fuel C (owlqn_init FunctionGradient z0 x0 C))
    as [st|] eqn:Hrun; [|discriminate].
  intros [= <-].
  destruct (owlqn_loop_descends fuel C _ HC _ _
              (owlqn_init_consistent FunctionGradient oracle_has_size z0 x0 C)
              Hrun) as ((_ & Hf & _) & Hle).
  rewrite Hf in Hle. rewrite owlqn_init_fields in Hle. exact Hle.
Qed.

End Convex.

Lemma bowl_oracle_convex : oracle_convex bowl_oracle.
Proof.
  intros x. induction x as [|xi x IH]; intros [|xi' x'] Hlen; try discriminate.
  - cbn. lra.
  - cbn [length] in Hlen. specialize (IH x' ltac:(lia)).
    cbn [bowl_oracle fst snd foldr map vsub zip_with] in *.
    fold (vsub x' x). rewrite DotProduct_cons.
    pose proof (Rle_0_sqr (xi' - xi)) as Hsq. unfold Rsqr in Hsq. lra.
Qed.

Lemma PseudoGradient_is_subgradient_witness :
  fst (RegularizedFuncGrad bowl_oracle 1 [0; 2])
  + DotProduct
      (PseudoGradient [0; 2] (snd (RegularizedFuncGrad bowl_oracle 1 [0; 2])) 1)
      (vsub [3; -1] [0; 2])
  <= fst (RegularizedFuncGrad bowl_oracle 1 [3; -1]).
Proof.
  apply (PseudoGradient_is_subgradient bowl_oracle bowl_oracle_sized
           bowl_oracle_convex 1 [0; 2] [3; -1]); [lra|reflexivity].
Defined.

Lemma PseudoGradient_zero_is_minimum_witness :
  fst (RegularizedFuncGrad bowl_oracle 0 [1])
  <= fst (RegularizedFuncGrad bowl_oracle 0 [5]).
Proof.
  apply (PseudoGradient_zero_is_minimum bowl_oracle bowl_oracle_sized
           bowl_oracle_convex 0 [1]); [lra| |reflexivity].
  intros i Hi. cbn in Hi. assert (i = 0%nat) as -> by lia.
  rewrite bowl_at_1. cbn [snd].
  unfold PseudoGradient, for_range. cbn [length seq fold_left].
  unfold PseudoGradient_step. cbn. Rdecide. cbn. lra.
Defined.

Lemma PerformOWLQN_never_worse_witness :
  fst (RegularizedFuncGrad bowl_oracle 0 [1])
  <= fst (RegularizedFuncGrad bowl_oracle 0 [0]).
Proof.
  apply (PerformOWLQN_never_worse bowl_oracle identity_Hg bowl_oracle_sized
           bowl_oracle_convex (fun _ _ _ _ _ => eq_refl) 1
           (replicate 10 NonFinite) [0] 0 [1]); [lra|apply bowl_run].
Defined.

(** ** Stopping *)

(** X17: stopping criterion 2, [sqrt(pg·pg) < MIN_GRAD_NORM], is the test
    [pg·pg < 1e-8] on the squared norm; in particular it holds when the
    pseudo-gradient is zero in every coordinate. *)
Theorem stopping_test_squared (C : R) (st : owlqn_state) :
  let pg := PseudoGradient (st_x st) (st_grad st) C in
  (pg_norm C st < MIN_GRAD_NORM <-> DotProduct pg pg < 1 / 100000000) /\
  ((forall i, (i < length pg)%nat -> at_ pg i = 0) ->
   pg_norm C st < MIN_GRAD_NORM).
Proof.
  cbv zeta. unfold pg_norm, MIN_GRAD_NORM.
  set (pg := PseudoGradient (st_x st) (st_grad st) C).
  pose proof (DotProduct_self_nonneg pg) as Hd.
  pose proof (sqrt_pos (DotProduct pg pg)) as Hs.
  pose proof (sqrt_sqrt (DotProduct pg pg) Hd) as Hss.
  split; [split|].
  - intros H. nra.
  - intros H. destruct (Rlt_dec (sqrt (DotProduct pg pg)) (1 / 10000)) as [Hlt|Hge];
      [exact Hlt|]. nra.
  - intros Hz. rewrite (DotProduct_zero_l pg pg Hz), sqrt_0. lra.
Qed.

Lemma stopping_test_squared_witness :
  pg_norm 0 (OwlqnState 0 [1] [0] 0 [] [] []) < MIN_GRAD_NORM.
Proof.
  destruct (stopping_test_squared 0 (OwlqnState 0 [1] [0] 0 [] [] [])) as (_ & H).
  apply H. cbn [st_x st_grad]. intros i Hi.
  rewrite PseudoGradient_length in Hi by reflexivity. cbn in Hi.
  assert (i = 0%nat) as -> by lia.
  unfold PseudoGradient, for_range. cbn [length seq fold_left].
  unfold PseudoGradient_step. cbn. Rdecide. cbn. lra.
Defined.

Section Optimum.

Variable FunctionGradient : list R -> R * list R.
Variable ApproximateHg :
  nat -> DoubleVector -> list DoubleVector -> list DoubleVector ->
  list quotient -> DoubleVector.

(** X18: started at a point that satisfies the optimality conditions of
    the L1-regularized objective in every coordinate ([grad_i = -C*sign(x_i)]
    where [x_i <> 0], [-C <= grad_i <= C] where [x_i = 0]; none for an empty
    [x0]), [PerformOWLQN] returns that point, whatever the bound on the line
    search. *)
Theorem PerformOWLQN_stays_at_optimum (fuel : nat) (z0 : list quotient)
    (x0 : list R) (C : R) :
  length (snd (FunctionGradient x0)) = length x0 ->
  (forall i, (i < length x0)%nat ->
     (at_ x0 i <> 0 ->
      at_ (snd (FunctionGradient x0)) i = - C * IZR (Sign (at_ x0 i))) /\
     (at_ x0 i = 0 -> - C <= at_ (snd (FunctionGradient x0)) i <= C)) ->
  PerformOWLQN FunctionGradient ApproximateHg fuel z0 x0 C = Some x0.
Proof.
  intros Hlen Hopt.
  assert (Hn : pg_norm C (owlqn_init FunctionGradient z0 x0 C) < MIN_GRAD_NORM).
  { rewrite owlqn_init_fields, RegularizedFuncGrad_pair. unfold pg_norm.
    cbn [fst snd st_x st_grad].
    rewrite DotProduct_zero_l; [rewrite sqrt_0; unfold MIN_GRAD_NORM; lra|].
    intros i Hi. rewrite PseudoGradient_length in Hi by exact Hlen.
    rewrite PseudoGradient_at by assumption.
    destruct (Hopt i Hi) as (Hnz & Hz). unfold pg_spec.
    destruct (Req_dec_T (at_ x0 i) 0) as [He|Hne].
    - specialize (Hz He). Rdecide.
    - rewrite (Hnz Hne). lra. }
  unfold PerformOWLQN, owlqn_final, OWLQN_MAX_ITER. cbn [owlqn_loop].
  change 300%nat with (S 299). cbn [owlqn_loop].
  rewrite owlqn_iter_break by exact Hn.
  rewrite owlqn_init_fields. reflexivity.
Qed.

End Optimum.

Lemma PerformOWLQN_stays_at_optimum_witness :
  PerformOWLQN bowl_oracle identity_Hg 0 [] [1 / 2] (1 / 2) = Some [1 / 2].
Proof.
  apply (PerformOWLQN_stays_at_optimum bowl_oracle identity_Hg 0 [] [1 / 2] (1 / 2)).
  - reflexivity.
  - intros i Hi. cbn in Hi. cbn [bowl_oracle snd map].
    assert (i = 0%nat) as -> by lia.
    rewrite !at_cons_0. split; [intros _|intros H; lra].
    unfold Sign. destruct (Rlt_dec 0 (1 / 2)) as [_|Hn]; [cbn; lra|lra].
Defined.

(** ** An iteration along the zero direction *)

Lemma vadd_scaled_zeros (t : R) (x : DoubleVector) :
  vadd x (vscale t (replicate (length x) 0)) = x.
Proof.
  induction x as [|a x IH]; [reflexivity|].
  cbn [length replicate vscale map vadd zip_with].
  fold (vscale t (replicate (length x) 0)). fold (vadd x (vscale t (replicate (length x) 0))).
  rewrite IH. f_equal. lra.
Qed.

Lemma Project_own_orthant (x pg : DoubleVector) :
  length pg = length x -> Project x (orthant_of x pg) = x.
Proof.
  intros Hlen. rewrite (orthant_of_spec x pg Hlen).
  apply at_ext.
  - unfold Project, orthant_spec. rewrite !length_zip_with. lia.
  - intros i Hi. unfold Project, orthant_spec in Hi.
    rewrite !length_zip_with in Hi.
    rewrite at_Project by (unfold orthant_spec; rewrite ?length_zip_with; lia).
    unfold orthant_spec. rewrite at_zip_with by lia.
    destruct (Req_dec_T (at_ x i) 0) as [He|Hne].
    + rewrite He. destruct (Z.eq_dec _ _); reflexivity.
    + destruct (Z.eq_dec _ _); [reflexivity|congruence].
Qed.

Lemma DotProduct_vsub_self (x v : DoubleVector) : DotProduct (vsub x x) v = 0.
Proof.
  apply DotProduct_zero_l. intros i Hi.
  unfold vsub in *. rewrite length_zip_with in Hi.
  rewrite at_zip_with by lia. lra.
Qed.

(** X19: when the direction handed to the line search is the zero vector
    (the projection has zeroed every coordinate of it) and [f], [grad] are
    the values at [x], the first trial of the line search is accepted with
    the point unchanged: the iteration returns to the same [x], [grad] and
    [f], and since then [s = 0] and [y = 0], the quotient it stores in the
    history is the non-finite one. *)
Theorem owlqn_zero_direction_step
    (FunctionGradient : list R -> R * list R)
    (ApproximateHg :
       nat -> DoubleVector -> list DoubleVector -> list DoubleVector ->
       list quotient -> DoubleVector)
    (fuel : nat) (C : R) (st : owlqn_state) :
  consistent FunctionGradient C st ->
  history_sized st ->
  ~ pg_norm C st < MIN_GRAD_NORM ->
  owlqn_direction ApproximateHg C st = replicate (length (st_x st)) 0 ->
  exists st',
    owlqn_iter FunctionGradient ApproximateHg (S fuel) C st = Continue st' /\
    st_x st' = st_x st /\ st_grad st' = st_grad st /\ st_f st' = st_f st /\
    st_z st' !! (st_iter st mod OWLQN_M)%nat = Some NonFinite.
Proof.
  intros (Hlen & Hf & Hg) Hsized Hfar Hdir.
  assert (Hit : exists st',
    owlqn_iter FunctionGradient ApproximateHg (S fuel) C st = Continue st' /\
    st_x st' = st_x st /\ st_grad st' = st_grad st /\ st_f st' = st_f st).
  { rewrite (owlqn_iter_proceed _ _ _ _ _ Hfar). cbv zeta. rewrite Hdir.
    unfold ConstrainedLineSearch. rewrite backtrack_unfold.
    rewrite vadd_scaled_zeros, Project_own_orthant
      by (apply PseudoGradient_length; exact Hlen).
    rewrite DotProduct_vsub_self.
    destruct (Rgt_dec _ _) as [Hgt|_]; [exfalso; lra|].
    unfold accepted_result. rewrite <- Hf, <- Hg.
    eexists. split; [reflexivity|]. repeat split; reflexivity. }
  destruct Hit as (st' & Hit & Hx & Hgr & Hfe).
  exists st'. repeat split; try assumption.
  destruct (owlqn_iter_history FunctionGradient ApproximateHg (S fuel) C st st'
              Hsized Hit) as (_ & _ & _ & Hq).
  cbv zeta in Hq. rewrite Hq, fdiv_zero; [reflexivity|].
  rewrite Hx. rewrite DotProduct_comm. apply DotProduct_vsub_self.
Qed.

Lemma owlqn_zero_direction_step_witness :
  exists st',
    owlqn_iter slope_oracle reversed_Hg 1 0
      (owlqn_init slope_oracle (replicate 10 (Finite 0)) [0] 0) = Continue st' /\
    st_x st' = [0].
Proof.
  destruct (owlqn_zero_direction_step slope_oracle reversed_Hg 0 0
              (owlqn_init slope_oracle (replicate 10 (Finite 0)) [0] 0))
    as (st' & Hit & Hx & _).
  - apply owlqn_init_consistent. exact slope_oracle_sized.
  - apply owlqn_init_sized. reflexivity.
  - rewrite owlqn_init_fields, RegularizedFuncGrad_pair. unfold pg_norm.
    cbn [fst snd slope_oracle map st_x st_grad].
    assert (Hpg : PseudoGradient [0] [-1] 0 = [-1]).
    { unfold PseudoGradient, for_range. cbn [length seq fold_left].
      unfold PseudoGradient_step. cbn. Rdecide. cbn. f_equal. lra. }
    rewrite Hpg. replace (DotProduct [-1] [-1]) with 1 by (cbn; lra).
    rewrite sqrt_1. unfold MIN_GRAD_NORM. lra.
  - rewrite owlqn_init_fields, RegularizedFuncGrad_pair. unfold owlqn_direction.
    cbn [fst snd slope_oracle map st_x st_grad st_iter st_s st_y st_z].
    assert (Hpg : PseudoGradient [0] [-1] 0 = [-1]).
    { unfold PseudoGradient, for_range. cbn [length seq fold_left].
      unfold PseudoGradient_step. cbn. Rdecide. cbn. f_equal. lra. }
    rewrite Hpg. unfold reversed_Hg, SearchDirection. cbn.
    unfold Sign. Rdecide; reflexivity.
  - exists st'. split; [exact Hit|].
    rewrite Hx, owlqn_init_fields. reflexivity.
Defined.
